(** * Rotary positional embeddings: the cosine/sine cache of
      aphrodite/modeling/layers/rotary_embedding.py

    The four classes [RotaryEmbedding], [LinearScalingRotaryEmbedding],
    [DynamicNTKScalingRotaryEmbedding] and [YaRNScalingRotaryEmbedding] and
    the four [_yarn_*] helpers are embedded as Rocq functions.

    Numbers.  A Python [int] is a [Z].  A Python [float] and an element of a
    [torch.float] tensor are both a real number [R]: the arithmetic of the
    source is taken exact (no rounding, no overflow, no NaN, no infinity),
    so the theorems below speak about the formulas the code evaluates, not
    about their rounding.  A Python number that the source accepts as
    [int] or [float] alike ([base]) is an [R]; the float literal [1.0] is
    the real [1].  Two places where exact reals
    have no counterpart of the IEEE value are pointed out where they occur
    ([torch_pow] on a non-positive base, a tensor divided by zero).

    Exceptions.  What Python raises ([ZeroDivisionError] of [/] and [**],
    [ValueError] of [math.log], [RuntimeError] of [torch.arange] and of a
    failed broadcast) is kept: fallible code returns a [result]. *)

From Stdlib Require Import Reals ZArith List Lia Lra.
Import ListNotations.

Local Open Scope R_scope.

(** ** Exceptions and the error monad *)

Inductive exn : Type :=
| ZeroDivisionError
| ValueError
| RuntimeError
| ComplexResult.

Inductive result (A : Type) : Type :=
| Ok (a : A)
| Raise (e : exn).

Arguments Ok {A} a.
Arguments Raise {A} e.

Definition bind {A B : Type} (m : result A) (k : A -> result B) : result B :=
  match m with
  | Ok a => k a
  | Raise e => Raise e
  end.

Notation "x <- m ;; k" := (bind m (fun x => k))
  (at level 61, m at next level, right associativity).
Notation "' pat <- m ;; k" := (bind m (fun x => match x with pat => k end))
  (at level 61, pat pattern, m at next level, right associativity).

(** ** Python scalar arithmetic *)

Module Py.

(** [x / y] on numbers: true division. *)
Definition div (x y : R) : result R :=
  if Req_dec_T y 0 then Raise ZeroDivisionError else Ok (x / y).

(** [x ** y] on floats.  A negative [x] with a fractional [y] gives a
    [complex] in Python 3, which this development does not follow
    ([ComplexResult]). *)
Definition pow (x y : R) : result R :=
  if Rlt_dec 0 x then Ok (Rpower x y)
  else if Req_dec_T x 0 then
    if Rlt_dec y 0 then Raise ZeroDivisionError
    else if Req_dec_T y 0 then Ok 1 else Ok 0
  else if Req_dec_T (IZR (Int_part y)) y then
    Ok (if Z.even (Int_part y) then Rpower (- x) y else - Rpower (- x) y)
  else Raise ComplexResult.

(** [math.log], [math.floor], [math.ceil], [math.pi]. *)
Definition log (x : R) : result R :=
  if Rlt_dec 0 x then Ok (ln x) else Raise ValueError.

Definition floor (x : R) : Z := Int_part x.

Definition ceil (x : R) : Z := (- Int_part (- x))%Z.

Definition pi : R := PI.

End Py.

(** ** Tensors and the torch operations the source calls *)

Module Torch.

Definition tensor1 : Type := list R.
Definition tensor2 : Type := list (list R).

(** [torch.arange(start, end, step, dtype=torch.float)]: the values
    [start + i * step] for [i < ceil((end - start) / step)]; a zero step or
    bounds against the sign of the step raise. *)
Definition arange3 (start stop step : R) : result tensor1 :=
  if Req_dec_T step 0 then Raise RuntimeError
  else if Rlt_dec ((stop - start) / step) 0 then Raise RuntimeError
  else
    let size := Z.to_nat (Py.ceil ((stop - start) / step)) in
    Ok (map (fun i => start + INR i * step) (seq 0 size)).

(** [torch.arange(end, dtype=torch.float)]. *)
Definition arange (stop : R) : result tensor1 := arange3 0 stop 1.

(** [tensor / c], [tensor - c], [tensor * c], [c - tensor], [c / tensor]
    for a Python scalar [c].  Division by a zero scalar does not raise in
    torch (it yields an infinity or a NaN); here it is [x / 0] of [R]. *)
Definition div_scalar (t : tensor1) (c : R) : tensor1 :=
  map (fun x => x / c) t.
Definition sub_scalar (t : tensor1) (c : R) : tensor1 :=
  map (fun x => x - c) t.
Definition mul_scalar (t : tensor1) (c : R) : tensor1 :=
  map (fun x => x * c) t.
Definition scalar_mul (c : R) (t : tensor1) : tensor1 :=
  map (fun x => c * x) t.
Definition scalar_sub (c : R) (t : tensor1) : tensor1 :=
  map (fun x => c - x) t.
Definition scalar_div (c : R) (t : tensor1) : tensor1 :=
  map (fun x => c / x) t.

(** [b ** tensor]: elementwise power of a scalar base.  For [0 < b] this is
    the real power; for [b <= 0] torch yields 0, 1, an infinity or a NaN
    and the value here is only a stand-in. *)
Definition torch_pow (b e : R) : R := Rpower b e.
Definition scalar_pow (b : R) (t : tensor1) : tensor1 :=
  map (torch_pow b) t.

(** [torch.clamp(t, lo, hi)]. *)
Definition clamp (t : tensor1) (lo hi : R) : tensor1 :=
  map (fun x => Rmin (Rmax x lo) hi) t.

(** An elementwise binary operation on two 1-D tensors, with torch's
    broadcasting: equal sizes, or one of the sizes is 1. *)
Fixpoint zip_with (f : R -> R -> R) (a b : tensor1) : tensor1 :=
  match a, b with
  | x :: a', y :: b' => f x y :: zip_with f a' b'
  | _, _ => []
  end.

Definition broadcast (f : R -> R -> R) (a b : tensor1) : result tensor1 :=
  if Nat.eqb (length a) (length b) then Ok (zip_with f a b)
  else if Nat.eqb (length a) 1 then Ok (map (f (hd 0 a)) b)
  else if Nat.eqb (length b) 1 then Ok (map (fun x => f x (hd 0 b)) a)
  else Raise RuntimeError.

Definition mul (a b : tensor1) : result tensor1 := broadcast Rmult a b.
Definition add (a b : tensor1) : result tensor1 := broadcast Rplus a b.

(** [torch.einsum("i,j -> ij", t, f)]: the outer product. *)
Definition einsum_outer (t f : tensor1) : tensor2 :=
  map (fun ti => map (fun fj => ti * fj) f) t.

(** [m.cos()], [m.sin()], [m * c] on a 2-D tensor. *)
Definition cos2 (m : tensor2) : tensor2 := map (map cos) m.
Definition sin2 (m : tensor2) : tensor2 := map (map sin) m.
Definition mul_scalar2 (m : tensor2) (c : R) : tensor2 :=
  map (map (fun x => x * c)) m.

(** [torch.cat((a, b), dim=-1)] of two 2-D tensors with the same number of
    rows: the rows are joined pairwise; another number of rows raises. *)
Fixpoint cat_rows (a b : tensor2) : tensor2 :=
  match a, b with
  | r :: a', s :: b' => (r ++ s) :: cat_rows a' b'
  | _, _ => []
  end.

Definition cat_last (a b : tensor2) : result tensor2 :=
  if Nat.eqb (length a) (length b) then Ok (cat_rows a b)
  else Raise RuntimeError.

(** [cache.to(torch.get_default_dtype())]: a change of storage precision,
    the identity on exact reals. *)
Definition to_default_dtype (m : tensor2) : tensor2 := m.

End Torch.

Import Torch.

(** ** class RotaryEmbedding *)

(** The attributes [__init__] sets before it builds the cache. *)
Record rope_attrs : Type := {
  head_size : Z;
  rotary_dim : Z;
  max_position_embeddings : Z;
  base : R;
  is_neox_style : bool
}.

Module RotaryEmbedding.

Record t : Type := {
  attrs : rope_attrs;
  cos_sin_cache : tensor2
}.

Definition _compute_inv_freq (self : rope_attrs) (base : R) : result tensor1 :=
  r <- arange3 0 (IZR (rotary_dim self)) 2 ;;
  Ok (scalar_div 1 (scalar_pow base (div_scalar r (IZR (rotary_dim self))))).

Definition _compute_cos_sin_cache (self : rope_attrs) : result tensor2 :=
  inv_freq <- _compute_inv_freq self (base self) ;;
  t <- arange (IZR (max_position_embeddings self)) ;;
  let freqs := einsum_outer t inv_freq in
  let cos := cos2 freqs in
  let sin := sin2 freqs in
  cat_last cos sin.

(** [__init__]; [compute] is the [_compute_cos_sin_cache] of the class
    of the object being built (the method is overridden by the
    subclasses). *)
Definition __init__ (compute : rope_attrs -> result tensor2)
    (head_size rotary_dim max_position_embeddings : Z) (base : R)
    (is_neox_style : bool) : result t :=
  let self := {| head_size := head_size;
                 rotary_dim := rotary_dim;
                 max_position_embeddings := max_position_embeddings;
                 base := base;
                 is_neox_style := is_neox_style |} in
  cache <- compute self ;;
  let cache := to_default_dtype cache in
  Ok {| attrs := self; cos_sin_cache := cache |}.

(** [RotaryEmbedding(head_size, rotary_dim, max_position_embeddings, base,
    is_neox_style)]: [__init__] on an object of the base class. *)
Definition new := __init__ _compute_cos_sin_cache.

End RotaryEmbedding.

(** ** class LinearScalingRotaryEmbedding(RotaryEmbedding) *)

Module LinearScalingRotaryEmbedding.

Record t : Type := {
  super : RotaryEmbedding.t;
  scaling_factor : R
}.

Definition _compute_cos_sin_cache (scaling_factor : R) (self : rope_attrs)
    : result tensor2 :=
  inv_freq <- RotaryEmbedding._compute_inv_freq self (base self) ;;
  let max_len := IZR (max_position_embeddings self) * scaling_factor in
  t <- arange max_len ;;
  let t := div_scalar t scaling_factor in
  let freqs := einsum_outer t inv_freq in
  let cos := cos2 freqs in
  let sin := sin2 freqs in
  cat_last cos sin.

Definition __init__ (head_size rotary_dim max_position_embeddings : Z)
    (base : R) (is_neox_style : bool) (scaling_factor : R) : result t :=
  super <- RotaryEmbedding.__init__ (_compute_cos_sin_cache scaling_factor)
             head_size rotary_dim max_position_embeddings base
             is_neox_style ;;
  Ok {| super := super; scaling_factor := scaling_factor |}.

End LinearScalingRotaryEmbedding.

(** ** class DynamicNTKScalingRotaryEmbedding(RotaryEmbedding) *)

Module DynamicNTKScalingRotaryEmbedding.

Record t : Type := {
  super : RotaryEmbedding.t;
  scaling_factor : R
}.

(** The modified base of [_compute_cos_sin_cache]. *)
Definition ntk_base (scaling_factor : R) (self : rope_attrs) : result R :=
  let max_len := IZR (max_position_embeddings self) * scaling_factor in
  q <- Py.div (scaling_factor * max_len)
              (IZR (max_position_embeddings self)) ;;
  e <- Py.div (IZR (rotary_dim self)) (IZR (rotary_dim self - 2)) ;;
  p <- Py.pow (q - (scaling_factor - 1)) e ;;
  Ok (base self * p).

Definition _compute_cos_sin_cache (scaling_factor : R) (self : rope_attrs)
    : result tensor2 :=
  let max_len := IZR (max_position_embeddings self) * scaling_factor in
  base <- ntk_base scaling_factor self ;;
  inv_freq <- RotaryEmbedding._compute_inv_freq self base ;;
  t <- arange max_len ;;
  let freqs := einsum_outer t inv_freq in
  let cos := cos2 freqs in
  let sin := sin2 freqs in
  cat_last cos sin.

Definition __init__ (head_size rotary_dim max_position_embeddings : Z)
    (base : R) (is_neox_style : bool) (scaling_factor : R) : result t :=
  super <- RotaryEmbedding.__init__ (_compute_cos_sin_cache scaling_factor)
             head_size rotary_dim max_position_embeddings base
             is_neox_style ;;
  Ok {| super := super; scaling_factor := scaling_factor |}.

End DynamicNTKScalingRotaryEmbedding.

(** ** The YaRN helpers *)

Definition _yarn_find_correction_dim (num_rotations : R) (dim : Z) (base : R)
    (max_position_embeddings : Z) : result R :=
  q <- Py.div (IZR max_position_embeddings) (num_rotations * 2 * Py.pi) ;;
  l <- Py.log q ;;
  lb <- Py.log base ;;
  Py.div (IZR dim * l) (2 * lb).

Definition _yarn_find_correction_range (low_rot high_rot : R) (dim : Z)
    (base : R) (max_position_embeddings : Z) : result (Z * Z) :=
  dl <- _yarn_find_correction_dim low_rot dim base max_position_embeddings ;;
  let low := Py.floor dl in
  dh <- _yarn_find_correction_dim high_rot dim base max_position_embeddings ;;
  let high := Py.ceil dh in
  Ok (Z.max low 0, Z.min high (dim - 1)).

(** The denominator [high - low] of the ramp, after the nudge of [high]. *)
Definition ramp_high (low high : R) : R :=
  if Req_dec_T low high then high + 0.001 else high.

Definition _yarn_linear_ramp_mask (low high : R) (dim : Z) : result tensor1 :=
  let high := ramp_high low high in
  r <- arange (IZR dim) ;;
  let linear_func := div_scalar (sub_scalar r low) (high - low) in
  let ramp_func := clamp linear_func 0 1 in
  Ok ramp_func.

Definition _yarn_get_mscale (scale : R) : result R :=
  if Rle_dec scale 1 then Ok 1
  else
    l <- Py.log scale ;;
    Ok (0.1 * l + 1).

(** ** class YaRNScalingRotaryEmbedding(RotaryEmbedding) *)

(** The attributes the YaRN [__init__] sets before it calls
    [super().__init__]. *)
Record yarn_attrs : Type := {
  scaling_factor : R;
  extrapolation_factor : R;
  attn_factor : R;
  beta_fast : R;
  beta_slow : R;
  mscale : R
}.

Module YaRNScalingRotaryEmbedding.

Record t : Type := {
  super : RotaryEmbedding.t;
  yarn : yarn_attrs
}.

(** [low, high = _yarn_find_correction_range(self.beta_fast, self.beta_slow,
    self.rotary_dim, self.base, self.max_position_embeddings)]. *)
Definition correction_range (y : yarn_attrs) (self : rope_attrs)
    : result (Z * Z) :=
  _yarn_find_correction_range (beta_fast y) (beta_slow y) (rotary_dim self)
    (base self) (max_position_embeddings self).

(** [inv_freq_mask = (1 - _yarn_linear_ramp_mask(low, high,
    self.rotary_dim // 2, ...)) * self.extrapolation_factor]. *)
Definition inv_freq_mask (y : yarn_attrs) (self : rope_attrs) (low high : Z)
    : result tensor1 :=
  ramp <- _yarn_linear_ramp_mask (IZR low) (IZR high) (rotary_dim self / 2) ;;
  Ok (mul_scalar (scalar_sub 1 ramp) (extrapolation_factor y)).

Definition _compute_inv_freq (y : yarn_attrs) (self : rope_attrs)
    (scaling_factor : R) : result tensor1 :=
  r <- arange3 0 (IZR (rotary_dim self)) 2 ;;
  let pos_freqs :=
    scalar_pow (base self) (div_scalar r (IZR (rotary_dim self))) in
  let inv_freq_extrapolation := scalar_div 1 pos_freqs in
  let inv_freq_interpolation :=
    scalar_div 1 (scalar_mul scaling_factor pos_freqs) in
  '(low, high) <- correction_range y self ;;
  inv_freq_mask <- inv_freq_mask y self low high ;;
  a <- mul inv_freq_interpolation (scalar_sub 1 inv_freq_mask) ;;
  b <- mul inv_freq_extrapolation inv_freq_mask ;;
  add a b.

Definition _compute_cos_sin_cache (y : yarn_attrs) (self : rope_attrs)
    : result tensor2 :=
  inv_freq <- _compute_inv_freq y self (scaling_factor y) ;;
  t <- arange (IZR (max_position_embeddings self) * scaling_factor y) ;;
  let freqs := einsum_outer t inv_freq in
  let cos := mul_scalar2 (cos2 freqs) (mscale y) in
  let sin := mul_scalar2 (sin2 freqs) (mscale y) in
  cat_last cos sin.

(** [__init__]: the keyword arguments [extrapolation_factor],
    [attn_factor], [beta_fast] and [beta_slow] (1, 1, 32 and 1 when left
    out) are passed explicitly; [mscale] is set before [super().__init__]
    builds the cache with the [_compute_cos_sin_cache] of this class. *)
Definition __init__ (head_size rotary_dim max_position_embeddings : Z)
    (base : R) (is_neox_style : bool) (scaling_factor : R)
    (extrapolation_factor attn_factor beta_fast beta_slow : R)
    : result t :=
  m <- _yarn_get_mscale scaling_factor ;;
  let y := {| scaling_factor := scaling_factor;
              extrapolation_factor := extrapolation_factor;
              attn_factor := attn_factor;
              beta_fast := beta_fast;
              beta_slow := beta_slow;
              mscale := m * attn_factor |} in
  super <- RotaryEmbedding.__init__ (_compute_cos_sin_cache y)
             head_size rotary_dim max_position_embeddings base
             is_neox_style ;;
  Ok {| super := super; yarn := y |}.

End YaRNScalingRotaryEmbedding.


(** * Closed forms and vocabulary of the statements *)

(** The values of [torch.arange(0, d, 2)]: [0, 2, 4, ...], [ceil(d / 2)]
    of them. *)
Definition evens (d : Z) : tensor1 :=
  map (fun i => IZR (2 * Z.of_nat i)) (seq 0 (Z.to_nat ((d + 1) / 2))).

(** The values of [torch.arange(x)] with [n = ceil(x)]: [0, 1, 2, ...],
    [n] of them. *)
Definition upto (n : nat) : tensor1 := map INR (seq 0 n).

(** Row [ti] of the table over the frequencies [f]: the cosines, then the
    sines, each passed through [g] (the identity, or the product by
    [mscale]). *)
Definition table_row (g : R -> R) (f : tensor1) (ti : R) : list R :=
  map (fun fj => g (cos (ti * fj))) f ++ map (fun fj => g (sin (ti * fj))) f.

(** The table over the positions [t]: one row per position. *)
Definition table (g : R -> R) (t f : tensor1) : tensor2 :=
  map (table_row g f) t.

(** The closed form of [_compute_inv_freq]: one entry per even number below
    [d]. *)
Definition base_inv_freq (b : R) (d : Z) : tensor1 :=
  map (fun e => 1 / Rpower b (e / IZR d)) (evens d).

(** A cosine or sine stored as it is. *)
Definition keep (x : R) : R := x.

(** The value of [_yarn_find_correction_dim] where it returns. *)
Definition correction_dim (r : R) (dim : Z) (b : R) (mp : Z) : R :=
  IZR dim * ln (IZR mp / (r * 2 * PI)) / (2 * ln b).

(** The factor of [_yarn_get_mscale]; the function never raises. *)
Definition mscale_factor (scale : R) : R :=
  if Rle_dec scale 1 then 1 else 0.1 * ln scale + 1.

(** [clamp(x, 0, 1)]. *)
Definition clamp01 (x : R) : R := Rmin (Rmax x 0) 1.

(** Entry [j] of [inv_freq_mask] and of the blended [inv_freq]. *)
Definition yarn_mask_at (low high : Z) (ef : R) (j : nat) : R :=
  (1 - clamp01 ((INR j - IZR low)
                / (ramp_high (IZR low) (IZR high) - IZR low))) * ef.

Definition yarn_inv_freq_at (b : R) (d : Z) (sf : R) (low high : Z) (ef : R)
    (j : nat) : R :=
  let pos_freq := Rpower b (IZR (2 * Z.of_nat j) / IZR d) in
  1 / (sf * pos_freq) * (1 - yarn_mask_at low high ef j)
  + 1 / pos_freq * yarn_mask_at low high ef j.

Definition yarn_inv_freq (b : R) (d : Z) (sf : R) (low high : Z) (ef : R)
    : tensor1 :=
  map (yarn_inv_freq_at b d sf low high ef) (seq 0 (Z.to_nat (d / 2))).

(** [row] is the cache row of the angle [tp] over the frequencies [f]:
    [2 * |f|] entries, the cosines in the first half and the sines of the
    same angles in the second, each passed through [g]. *)
Definition row_is (row : list R) (g : R -> R) (tp : R) (f : tensor1) : Prop :=
  length row = (2 * length f)%nat /\
  forall j, (j < length f)%nat ->
    nth j row 0 = g (cos (tp * nth j f 0)) /\
    nth (length f + j) row 0 = g (sin (tp * nth j f 0)).

(** The value of [ntk_base] where it returns. *)
Definition ntk_base_value (b sf : R) (mp d : Z) : R :=
  b * Rpower (sf * (IZR mp * sf) / IZR mp - (sf - 1)) (IZR d / IZR (d - 2)).

(** The attributes of a YaRN object, [mscale] included. *)
Definition yarn_self (sf ef af bf bs : R) : yarn_attrs :=
  {| scaling_factor := sf;
     extrapolation_factor := ef;
     attn_factor := af;
     beta_fast := bf;
     beta_slow := bs;
     mscale := mscale_factor sf * af |}.

(** The four classes, with the arguments each adds to those of
    [RotaryEmbedding]. *)
Inductive variant : Type :=
| Base
| Linear (scaling_factor : R)
| DynamicNTK (scaling_factor : R)
| YaRN (scaling_factor extrapolation_factor attn_factor beta_fast
        beta_slow : R).

(** The [RotaryEmbedding] part of the object the class of [v] builds. *)
Definition construct (v : variant) (hs d mp : Z) (b : R) (neox : bool)
    : result RotaryEmbedding.t :=
  match v with
  | Base => RotaryEmbedding.new hs d mp b neox
  | Linear sf =>
      o <- LinearScalingRotaryEmbedding.__init__ hs d mp b neox sf ;;
      Ok (LinearScalingRotaryEmbedding.super o)
  | DynamicNTK sf =>
      o <- DynamicNTKScalingRotaryEmbedding.__init__ hs d mp b neox sf ;;
      Ok (DynamicNTKScalingRotaryEmbedding.super o)
  | YaRN sf ef af bf bs =>
      o <- YaRNScalingRotaryEmbedding.__init__ hs d mp b neox sf ef af bf bs ;;
      Ok (YaRNScalingRotaryEmbedding.super o)
  end.

(** [max_position_embeddings], times [scaling_factor] for the scaled
    variants. *)
Definition effective_max_positions (v : variant) (mp : Z) : R :=
  match v with
  | Base => IZR mp
  | Linear sf | DynamicNTK sf | YaRN sf _ _ _ _ => IZR mp * sf
  end.

(** The position [t[p]] that enters the outer product. *)
Definition position (v : variant) (p : nat) : R :=
  match v with
  | Linear sf => INR p / sf
  | _ => INR p
  end.

(** What is stored for a cosine or sine [x]. *)
Definition stored (v : variant) (x : R) : R :=
  match v with
  | YaRN sf _ af _ _ => x * (mscale_factor sf * af)
  | _ => x
  end.

(** The inverse frequencies the class of [v] computes. *)
Definition inv_freq_of (v : variant) (self : rope_attrs) : result tensor1 :=
  match v with
  | Base | Linear _ => RotaryEmbedding._compute_inv_freq self (base self)
  | DynamicNTK sf =>
      b' <- DynamicNTKScalingRotaryEmbedding.ntk_base sf self ;;
      RotaryEmbedding._compute_inv_freq self b'
  | YaRN sf ef af bf bs =>
      YaRNScalingRotaryEmbedding._compute_inv_freq
        (yarn_self sf ef af bf bs) self sf
  end.

(** * aphrodite/common/config.py *)

(** The configuration classes raise exceptions of their own
    ([NotImplementedError], the [AssertionError] of a failed [assert]);
    they return an [outcome]. *)
Module Cfg.

Inductive error : Type :=
| ValueError
| NotImplementedError
| AssertionError
| ZeroDivisionError
| RuntimeError.

Inductive outcome (A : Type) : Type :=
| Return (a : A)
| Throw (e : error).

Arguments Return {A} a.
Arguments Throw {A} e.

Definition bind {A B : Type} (m : outcome A) (k : A -> outcome B)
    : outcome B :=
  match m with
  | Return a => k a
  | Throw e => Throw e
  end.

(** [a % b] and [a // b] on [int]: the remainder takes the sign of the
    divisor and the quotient is rounded down, as [Z.modulo] and [Z.div] do;
    a zero divisor raises. *)
Definition mod_ (a b : Z) : outcome Z :=
  if Z.eqb b 0 then Throw ZeroDivisionError else Return (a mod b)%Z.

Definition floordiv (a b : Z) : outcome Z :=
  if Z.eqb b 0 then Throw ZeroDivisionError else Return (a / b)%Z.

(** [int(x)] of a float: rounding towards zero. *)
Definition int (x : R) : Z :=
  if Rle_dec 0 x then Py.floor x else Py.ceil x.

End Cfg.

Notation "x <~ m ;; k" := (Cfg.bind m (fun x => k))
  (at level 61, m at next level, right associativity).

(** ** class ParallelConfig *)

Module ParallelConfig.

Record t : Type := {
  pipeline_parallel_size : Z;
  tensor_parallel_size : Z;
  worker_use_ray : bool;
  world_size : Z
}.

Definition _verify_args (self : t) : Cfg.outcome unit :=
  if (1 <? pipeline_parallel_size self)%Z
  then Cfg.Throw Cfg.NotImplementedError
  else Cfg.Return tt.

Definition __init__ (pipeline_parallel_size tensor_parallel_size : Z)
    (worker_use_ray : bool) : Cfg.outcome t :=
  let world_size := (pipeline_parallel_size * tensor_parallel_size)%Z in
  let worker_use_ray :=
    if (1 <? world_size)%Z then true else worker_use_ray in
  let self := {| pipeline_parallel_size := pipeline_parallel_size;
                 tensor_parallel_size := tensor_parallel_size;
                 worker_use_ray := worker_use_ray;
                 world_size := world_size |} in
  _ <~ _verify_args self ;;
  Cfg.Return self.

End ParallelConfig.

(** ** class SchedulerConfig *)

Module SchedulerConfig.

Record t : Type := {
  max_num_batched_tokens : Z;
  max_num_seqs : Z;
  max_model_len : Z
}.

Definition _verify_args (self : t) : Cfg.outcome unit :=
  if (max_num_batched_tokens self <? max_model_len self)%Z
  then Cfg.Throw Cfg.ValueError
  else if (max_num_batched_tokens self <? max_num_seqs self)%Z
  then Cfg.Throw Cfg.ValueError
  else Cfg.Return tt.

Definition __init__ (max_num_batched_tokens : option Z)
    (max_num_seqs max_model_len : Z) : Cfg.outcome t :=
  let batched :=
    match max_num_batched_tokens with
    | Some m => m
    | None => Z.max max_model_len 2048
    end in
  let self := {| max_num_batched_tokens := batched;
                 max_num_seqs := max_num_seqs;
                 max_model_len := max_model_len |} in
  _ <~ _verify_args self ;;
  Cfg.Return self.

End SchedulerConfig.

(** ** class ModelConfig: what depends on the HuggingFace configuration *)

(** The attributes of [hf_config] that [config.py] reads; [None] stands for
    an attribute that is missing or is [None] ([getattr(hf_config, key,
    None)]).  Of the dict [rope_scaling] only the entry ["factor"] is read:
    [Some None] is a dict without that key. *)
Record hf_config : Type := {
  num_attention_heads : Z;
  num_hidden_layers : Z;
  hidden_size : Z;
  n_head_kv : option Z;
  num_kv_heads : option Z;
  num_key_value_heads : option Z;
  hf_max_position_embeddings : option Z;
  n_positions : option Z;
  max_seq_len : option Z;
  max_sequence_length : option Z;
  max_seq_length : option Z;
  seq_len : option Z;
  rope_scaling : option (option R)
}.

Module ModelConfig.

Definition verify_with_parallel_config (hf : hf_config)
    (parallel_config : ParallelConfig.t) : Cfg.outcome unit :=
  let total_num_attention_heads := num_attention_heads hf in
  let tensor_parallel_size :=
    ParallelConfig.tensor_parallel_size parallel_config in
  r <~ Cfg.mod_ total_num_attention_heads tensor_parallel_size ;;
  if negb (Z.eqb r 0) then Cfg.Throw Cfg.ValueError
  else
    let total_num_hidden_layers := num_hidden_layers hf in
    let pipeline_parallel_size :=
      ParallelConfig.pipeline_parallel_size parallel_config in
    r <~ Cfg.mod_ total_num_hidden_layers pipeline_parallel_size ;;
    if negb (Z.eqb r 0) then Cfg.Throw Cfg.ValueError
    else Cfg.Return tt.

Definition get_hidden_size (hf : hf_config) : Z := hidden_size hf.

Definition get_head_size (hf : hf_config) : Cfg.outcome Z :=
  Cfg.floordiv (hidden_size hf) (num_attention_heads hf).

Definition get_num_kv_heads (hf : hf_config)
    (parallel_config : ParallelConfig.t) : Cfg.outcome Z :=
  let tp := ParallelConfig.tensor_parallel_size parallel_config in
  match n_head_kv hf with
  | Some n => Cfg.floordiv n tp
  | None =>
      match num_kv_heads hf with
      | Some n => Cfg.floordiv n tp
      | None =>
          match num_key_value_heads hf with
          | Some n => Cfg.floordiv n tp
          | None => Cfg.floordiv (num_attention_heads hf) tp
          end
      end
  end.

Definition get_num_layers (hf : hf_config)
    (parallel_config : ParallelConfig.t) : Cfg.outcome Z :=
  Cfg.floordiv (num_hidden_layers hf)
    (ParallelConfig.pipeline_parallel_size parallel_config).

End ModelConfig.

(** ** _get_and_verify_max_len *)

(** [possible_keys], as the attribute each key reads. *)
Definition possible_keys : list (hf_config -> option Z) :=
  [hf_max_position_embeddings; n_positions; max_seq_len;
   max_sequence_length; max_seq_length; seq_len].

(** The loop over [possible_keys]; [None] is [float("inf")]. *)
Definition derive_max_len (hf : hf_config) : option Z :=
  fold_left
    (fun derived key =>
       match key hf with
       | Some max_len_key =>
           Some (match derived with
                 | None => max_len_key
                 | Some d => Z.min d max_len_key
                 end)
       | None => derived
       end)
    possible_keys None.

Definition _get_and_verify_max_len (hf : hf_config)
    (max_model_len : option Z) : Cfg.outcome Z :=
  match derive_max_len hf with
  | None => Cfg.Throw Cfg.ValueError
  | Some derived =>
      derived_max_model_len <~
        match rope_scaling hf with
        | None => Cfg.Return (IZR derived)
        | Some None => Cfg.Throw Cfg.AssertionError
        | Some (Some scaling_factor) =>
            Cfg.Return (IZR derived * scaling_factor)
        end ;;
      match max_model_len with
      | None => Cfg.Return (Cfg.int derived_max_model_len)
      | Some m =>
          if Rlt_dec derived_max_model_len (IZR m)
          then Cfg.Throw Cfg.ValueError
          else Cfg.Return m
      end
  end.

(** The number of KV heads [get_num_kv_heads] divides: the first of
    [n_head_kv], [num_kv_heads] and [num_key_value_heads] that is set, else
    [num_attention_heads]. *)
Definition total_kv_heads (hf : hf_config) : Z :=
  match n_head_kv hf, num_kv_heads hf, num_key_value_heads hf with
  | Some n, _, _ => n
  | None, Some n, _ => n
  | None, None, Some n => n
  | None, None, None => num_attention_heads hf
  end.

(** [hf] with the attribute [n_head_kv] set to [n]. *)
Definition with_n_head_kv (hf : hf_config) (n : Z) : hf_config :=
  {| num_attention_heads := num_attention_heads hf;
     num_hidden_layers := num_hidden_layers hf;
     hidden_size := hidden_size hf;
     n_head_kv := Some n;
     num_kv_heads := num_kv_heads hf;
     num_key_value_heads := num_key_value_heads hf;
     hf_max_position_embeddings := hf_max_position_embeddings hf;
     n_positions := n_positions hf;
     max_seq_len := max_seq_len hf;
     max_sequence_length := max_sequence_length hf;
     max_seq_length := max_seq_length hf;
     seq_len := seq_len hf;
     rope_scaling := rope_scaling hf |}.

(** A LLaMA-like configuration, for the examples. *)
Definition llama_config : hf_config :=
  {| num_attention_heads := 32;
     num_hidden_layers := 32;
     hidden_size := 4096;
     n_head_kv := None;
     num_kv_heads := None;
     num_key_value_heads := None;
     hf_max_position_embeddings := Some 4096%Z;
     n_positions := None;
     max_seq_len := None;
     max_sequence_length := None;
     max_seq_length := None;
     seq_len := None;
     rope_scaling := Some (Some 2) |}.

Definition four_workers : ParallelConfig.t :=
  {| ParallelConfig.pipeline_parallel_size := 1;
     ParallelConfig.tensor_parallel_size := 4;
     ParallelConfig.worker_use_ray := true;
     ParallelConfig.world_size := 4 |}.

(** The factor [_get_and_verify_max_len] multiplies by: [1] without
    [rope_scaling]. *)
Definition scaling_of (hf : hf_config) : R :=
  match rope_scaling hf with
  | Some (Some scaling_factor) => scaling_factor
  | _ => 1
  end.

(** * aphrodite/modeling/quantization_utils/squeezellm.py and
      aphrodite/modeling/layers/quantized_linear/squeezellm.py *)

Module SqueezeLLMConfig.

Record t : Type := {
  weight_bits : Z;
  pack_factor : Z
}.

Definition __init__ (weight_bits : Z) : Cfg.outcome t :=
  if negb (Z.eqb weight_bits 4) then Cfg.Throw Cfg.ValueError
  else
    pack_factor <~ Cfg.floordiv 32 weight_bits ;;
    Cfg.Return {| weight_bits := weight_bits; pack_factor := pack_factor |}.

End SqueezeLLMConfig.

(** [torch.empty(rows, cols, ...)]: only the shape matters here; a negative
    size raises. *)
Definition torch_empty (rows cols : Z) : Cfg.outcome (Z * Z) :=
  if orb (rows <? 0)%Z (cols <? 0)%Z then Cfg.Throw Cfg.RuntimeError
  else Cfg.Return (rows, cols).

(** [create_weights] of [SqueezeLLMColumnParallelLinear] (with
    [input_size] and [output_size_per_partition]) and of
    [SqueezeLLMRowParallelLinear] (with [input_size_per_partition] and
    [output_size]): the same body on the class's own two sizes.  The result
    is the shapes of [qweight] and of [lookup_table]. *)
Definition create_weights (quant_config : SqueezeLLMConfig.t)
    (input_size output_size : Z) : Cfg.outcome ((Z * Z) * (Z * Z)) :=
  r <~ Cfg.mod_ input_size (SqueezeLLMConfig.weight_bits quant_config) ;;
  if negb (Z.eqb r 0) then Cfg.Throw Cfg.AssertionError
  else
    r <~ Cfg.mod_ output_size (SqueezeLLMConfig.pack_factor quant_config) ;;
    if negb (Z.eqb r 0) then Cfg.Throw Cfg.AssertionError
    else
      rows <~ Cfg.floordiv input_size
                (SqueezeLLMConfig.pack_factor quant_config) ;;
      qweight <~ torch_empty rows output_size ;;
      lookup_table <~
        torch_empty output_size
          (SqueezeLLMConfig.weight_bits quant_config ^ 2)%Z ;;
      Cfg.Return (qweight, lookup_table).

(** * Properties *)

(** ** The error monad *)

Lemma bind_Ok_inv {A B : Type} (m : result A) (k : A -> result B) (b : B) :
  bind m k = Ok b -> exists a, m = Ok a /\ k a = Ok b.
Proof.
  destruct m as [a|e]; simpl; intros H; [exists a; auto | discriminate].
Qed.

Tactic Notation "bind_inv" hyp(H) "as" ident(a) ident(Ha) :=
  apply bind_Ok_inv in H; destruct H as [a [Ha H]].

(** ** Floor and ceiling *)

Lemma floor_bounds (x : R) : IZR (Py.floor x) <= x < IZR (Py.floor x) + 1.
Proof.
  unfold Py.floor. destruct (base_Int_part x) as [H1 H2]. lra.
Qed.

Lemma ceil_bounds (x : R) : IZR (Py.ceil x) - 1 < x <= IZR (Py.ceil x).
Proof.
  unfold Py.ceil. rewrite opp_IZR.
  destruct (base_Int_part (- x)) as [H1 H2]. lra.
Qed.

Lemma ceil_unique (x : R) (z : Z) : IZR z - 1 < x <= IZR z -> Py.ceil x = z.
Proof.
  intros [H1 H2]. unfold Py.ceil.
  rewrite <- (Int_part_spec (- x) (- z)%Z); [lia|].
  rewrite opp_IZR. lra.
Qed.

Lemma ceil_IZR (z : Z) : Py.ceil (IZR z) = z.
Proof. apply ceil_unique. lra. Qed.

Lemma ceil_half (d : Z) : Py.ceil ((IZR d - 0) / 2) = ((d + 1) / 2)%Z.
Proof.
  apply ceil_unique.
  pose proof (Z.div_mod (d + 1) 2 ltac:(lia)) as E.
  pose proof (Z.mod_pos_bound (d + 1) 2 ltac:(lia)) as B.
  set (q := ((d + 1) / 2)%Z) in *. set (r := ((d + 1) mod 2)%Z) in *.
  assert (Ed : IZR d = 2 * IZR q + IZR r - 1).
  { replace d with (2 * q + r - 1)%Z at 1 by lia.
    rewrite minus_IZR, plus_IZR, mult_IZR. reflexivity. }
  assert (0 <= IZR r <= 1).
  { split; [apply (IZR_le 0) | apply (IZR_le _ 1)]; lia. }
  lra.
Qed.

(** ** [torch.arange] *)

Lemma arange3_Ok_inv (start stop step : R) (r : tensor1) :
  arange3 start stop step = Ok r ->
  step <> 0 /\ 0 <= (stop - start) / step /\
  r = map (fun i => start + INR i * step)
          (seq 0 (Z.to_nat (Py.ceil ((stop - start) / step)))).
Proof.
  unfold arange3. destruct (Req_dec_T step 0); [discriminate|].
  destruct (Rlt_dec _ 0); [discriminate|].
  intros H. injection H as <-. repeat split; auto. lra.
Qed.

Lemma arange3_evens (d : Z) :
  (0 <= d)%Z -> arange3 0 (IZR d) 2 = Ok (evens d).
Proof.
  intros Hd. unfold arange3.
  destruct (Req_dec_T 2 0); [lra|].
  destruct (Rlt_dec _ 0) as [H|_].
  { apply IZR_le in Hd. lra. }
  rewrite ceil_half. unfold evens. apply f_equal, map_ext. intros i.
  rewrite mult_IZR, <- INR_IZR_INZ. lra.
Qed.

Lemma arange3_evens_neg (d : Z) :
  (d < 0)%Z -> arange3 0 (IZR d) 2 = Raise RuntimeError.
Proof.
  intros Hd. unfold arange3.
  destruct (Req_dec_T 2 0); [lra|].
  destruct (Rlt_dec _ 0) as [_|H]; [reflexivity|].
  apply IZR_lt in Hd. lra.
Qed.

Lemma arange_upto (x : R) :
  0 <= x -> arange x = Ok (upto (Z.to_nat (Py.ceil x))).
Proof.
  intros Hx. unfold arange, arange3.
  destruct (Req_dec_T 1 0); [lra|].
  destruct (Rlt_dec _ 0) as [H|_]; [lra|].
  replace ((x - 0) / 1) with x by lra.
  unfold upto. apply f_equal, map_ext. intros i. lra.
Qed.

Lemma arange_neg (x : R) : x < 0 -> arange x = Raise RuntimeError.
Proof.
  intros Hx. unfold arange, arange3.
  destruct (Req_dec_T 1 0); [lra|].
  destruct (Rlt_dec _ 0) as [_|H]; [reflexivity|lra].
Qed.

Lemma arange_Ok_inv (x : R) (r : tensor1) :
  arange x = Ok r -> 0 <= x /\ r = upto (Z.to_nat (Py.ceil x)).
Proof.
  intros H. destruct (Rlt_dec x 0) as [Hx|Hx].
  - rewrite arange_neg in H by assumption. discriminate.
  - assert (Hx' : 0 <= x) by lra. rewrite arange_upto in H by assumption.
    injection H as <-. auto.
Qed.

Lemma arange3_evens_Ok_inv (d : Z) (r : tensor1) :
  arange3 0 (IZR d) 2 = Ok r -> (0 <= d)%Z /\ r = evens d.
Proof.
  intros H. destruct (Z_lt_le_dec d 0) as [Hd|Hd].
  - rewrite arange3_evens_neg in H by assumption. discriminate.
  - rewrite arange3_evens in H by assumption. injection H as <-. auto.
Qed.

Lemma length_upto (n : nat) : length (upto n) = n.
Proof. unfold upto. now rewrite length_map, length_seq. Qed.

Lemma nth_upto (n p : nat) : (p < n)%nat -> nth p (upto n) 0 = INR p.
Proof.
  intros H. unfold upto.
  rewrite (nth_indep _ 0 (INR 0)) by now rewrite length_map, length_seq.
  rewrite map_nth, seq_nth by assumption. reflexivity.
Qed.

Lemma length_evens (d : Z) : length (evens d) = Z.to_nat ((d + 1) / 2).
Proof. unfold evens. now rewrite length_map, length_seq. Qed.

Lemma nth_evens (d : Z) (i : nat) :
  (i < Z.to_nat ((d + 1) / 2))%nat ->
  nth i (evens d) 0 = IZR (2 * Z.of_nat i).
Proof.
  intros H. unfold evens.
  rewrite (nth_indep _ 0 ((fun i => IZR (2 * Z.of_nat i)) 0%nat))
    by now rewrite length_map, length_seq.
  rewrite (map_nth (fun i => IZR (2 * Z.of_nat i))), seq_nth by assumption.
  reflexivity.
Qed.

Lemma even_half (d : Z) : Z.even d = true -> ((d + 1) / 2 = d / 2)%Z.
Proof.
  intros H. apply Z.even_spec in H. destruct H as [k ->].
  replace (2 * k + 1)%Z with (1 + k * 2)%Z by lia.
  rewrite Z.div_add by lia. replace (2 * k)%Z with (k * 2)%Z by lia.
  rewrite Z.div_mul by lia. reflexivity.
Qed.

(** ** The table of cosines and sines *)

Lemma cat_rows_table (g : R -> R) (t f : tensor1) :
  cat_rows (map (map g) (cos2 (einsum_outer t f)))
           (map (map g) (sin2 (einsum_outer t f))) = table g t f.
Proof.
  unfold table, cos2, sin2, einsum_outer.
  induction t as [|ti t IH]; simpl; [reflexivity|].
  rewrite IH. f_equal. unfold table_row. now rewrite !map_map.
Qed.

Lemma map_map_id (m : tensor2) : map (map (fun x : R => x)) m = m.
Proof.
  induction m as [|r m IH]; simpl; [reflexivity|].
  now rewrite map_id, IH.
Qed.

Lemma cat_last_cos_sin (t f : tensor1) :
  cat_last (cos2 (einsum_outer t f)) (sin2 (einsum_outer t f))
  = Ok (table (fun x => x) t f).
Proof.
  unfold cat_last.
  replace (Nat.eqb (length (cos2 (einsum_outer t f)))
                   (length (sin2 (einsum_outer t f))))
    with true.
  2:{ symmetry. apply Nat.eqb_eq. unfold cos2, sin2.
      now rewrite !length_map. }
  rewrite <- cat_rows_table. now rewrite !map_map_id.
Qed.

Lemma cat_last_cos_sin_scaled (t f : tensor1) (m : R) :
  cat_last (mul_scalar2 (cos2 (einsum_outer t f)) m)
           (mul_scalar2 (sin2 (einsum_outer t f)) m)
  = Ok (table (fun x => x * m) t f).
Proof.
  unfold cat_last, mul_scalar2.
  replace (Nat.eqb (length (map (map (fun x => x * m))
                                 (cos2 (einsum_outer t f))))
                   (length (map (map (fun x => x * m))
                                 (sin2 (einsum_outer t f)))))
    with true.
  2:{ symmetry. apply Nat.eqb_eq. unfold cos2, sin2.
      now rewrite !length_map. }
  now rewrite cat_rows_table.
Qed.

Lemma length_table (g : R -> R) (t f : tensor1) :
  length (table g t f) = length t.
Proof. unfold table. apply length_map. Qed.

Lemma nth_table (g : R -> R) (t f : tensor1) (p : nat) :
  (p < length t)%nat ->
  nth p (table g t f) [] = table_row g f (nth p t 0).
Proof.
  intros H. unfold table.
  rewrite (nth_indep _ [] (table_row g f 0)) by now rewrite length_map.
  apply map_nth.
Qed.

Lemma length_table_row (g : R -> R) (f : tensor1) (ti : R) :
  length (table_row g f ti) = (2 * length f)%nat.
Proof. unfold table_row. rewrite length_app, !length_map. lia. Qed.

Lemma nth_table_row_cos (g : R -> R) (f : tensor1) (ti : R) (j : nat) :
  (j < length f)%nat ->
  nth j (table_row g f ti) 0 = g (cos (ti * nth j f 0)).
Proof.
  intros H. unfold table_row.
  rewrite app_nth1 by now rewrite length_map.
  rewrite (nth_indep _ 0 ((fun fj => g (cos (ti * fj))) 0))
    by now rewrite length_map.
  apply (map_nth (fun fj => g (cos (ti * fj)))).
Qed.

Lemma nth_table_row_sin (g : R -> R) (f : tensor1) (ti : R) (j : nat) :
  (j < length f)%nat ->
  nth (length f + j) (table_row g f ti) 0 = g (sin (ti * nth j f 0)).
Proof.
  intros H. unfold table_row.
  rewrite app_nth2 by (rewrite length_map; lia).
  rewrite length_map. replace (length f + j - length f)%nat with j by lia.
  rewrite (nth_indep _ 0 ((fun fj => g (sin (ti * fj))) 0))
    by now rewrite length_map.
  apply (map_nth (fun fj => g (sin (ti * fj)))).
Qed.

(** ** The base inverse frequencies *)

Lemma compute_inv_freq_Ok (self : rope_attrs) (b : R) :
  (0 <= rotary_dim self)%Z ->
  RotaryEmbedding._compute_inv_freq self b
  = Ok (base_inv_freq b (rotary_dim self)).
Proof.
  intros Hd. unfold RotaryEmbedding._compute_inv_freq.
  rewrite arange3_evens by assumption. simpl.
  unfold scalar_div, scalar_pow, div_scalar, base_inv_freq, torch_pow.
  now rewrite !map_map.
Qed.

Lemma compute_inv_freq_Ok_inv (self : rope_attrs) (b : R) (f : tensor1) :
  RotaryEmbedding._compute_inv_freq self b = Ok f ->
  (0 <= rotary_dim self)%Z /\ f = base_inv_freq b (rotary_dim self).
Proof.
  intros H. destruct (Z_lt_le_dec (rotary_dim self) 0) as [Hd|Hd].
  - unfold RotaryEmbedding._compute_inv_freq in H.
    rewrite arange3_evens_neg in H by assumption. discriminate.
  - rewrite compute_inv_freq_Ok in H by assumption.
    injection H as <-. auto.
Qed.

Lemma length_base_inv_freq (b : R) (d : Z) :
  length (base_inv_freq b d) = Z.to_nat ((d + 1) / 2).
Proof. unfold base_inv_freq. now rewrite length_map, length_evens. Qed.

Lemma nth_base_inv_freq (b : R) (d : Z) (i : nat) :
  (i < Z.to_nat ((d + 1) / 2))%nat ->
  nth i (base_inv_freq b d) 0
  = 1 / Rpower b (IZR (2 * Z.of_nat i) / IZR d).
Proof.
  intros H. unfold base_inv_freq.
  rewrite (nth_indep _ 0 ((fun e => 1 / Rpower b (e / IZR d)) 0))
    by now rewrite length_map, length_evens.
  rewrite (map_nth (fun e => 1 / Rpower b (e / IZR d))).
  now rewrite nth_evens.
Qed.

(** C1: for an even [rotary_dim >= 2] and a base [> 0], the inverse-frequency
    vector of the base variant has [rotary_dim / 2] entries and entry [i] is
    [1 / base ^ (2 i / rotary_dim)]. *)
Theorem C1_base_inv_freq (self : rope_attrs) :
  Z.even (rotary_dim self) = true ->
  (2 <= rotary_dim self)%Z ->
  0 < base self ->
  exists inv_freq,
    RotaryEmbedding._compute_inv_freq self (base self) = Ok inv_freq /\
    Z.of_nat (length inv_freq) = (rotary_dim self / 2)%Z /\
    forall i : Z, (0 <= i < rotary_dim self / 2)%Z ->
      nth (Z.to_nat i) inv_freq 0
      = 1 / Rpower (base self) (IZR (2 * i) / IZR (rotary_dim self)).
Proof.
  intros Hev Hd Hb. exists (base_inv_freq (base self) (rotary_dim self)).
  pose proof (even_half _ Hev) as Hh.
  assert (0 <= rotary_dim self / 2)%Z by (apply Z.div_pos; lia).
  split; [apply compute_inv_freq_Ok; lia|]. split.
  - rewrite length_base_inv_freq, Hh. lia.
  - intros i Hi. rewrite nth_base_inv_freq by (rewrite Hh; lia).
    now rewrite Z2Nat.id by lia.
Qed.

Lemma C1_base_inv_freq_witness :
  exists inv_freq,
    RotaryEmbedding._compute_inv_freq
      {| head_size := 4; rotary_dim := 4; max_position_embeddings := 1;
         base := 10000; is_neox_style := true |} 10000 = Ok inv_freq /\
    Z.of_nat (length inv_freq) = 2%Z /\
    nth 1 inv_freq 0 = 1 / Rpower 10000 (2 / 4).
Proof.
  destruct (C1_base_inv_freq
              {| head_size := 4; rotary_dim := 4; max_position_embeddings := 1;
                 base := 10000; is_neox_style := true |})
    as [f [H1 [H2 H3]]]; simpl; [reflexivity | lia | lra |].
  exists f. split; [exact H1|]. split; [exact H2|].
  apply (H3 1%Z). cbn [rotary_dim]. split; [lia | reflexivity].
Defined.

(** ** Closed forms of the four caches *)

Lemma init_Ok_inv (compute : rope_attrs -> result tensor2)
    (hs d mp : Z) (b : R) (neox : bool) (obj : RotaryEmbedding.t) :
  RotaryEmbedding.__init__ compute hs d mp b neox = Ok obj ->
  RotaryEmbedding.attrs obj
  = {| head_size := hs; rotary_dim := d; max_position_embeddings := mp;
       base := b; is_neox_style := neox |} /\
  compute (RotaryEmbedding.attrs obj) = Ok (RotaryEmbedding.cos_sin_cache obj).
Proof.
  unfold RotaryEmbedding.__init__. intros H. bind_inv H as c Hc.
  injection H as <-. simpl. auto.
Qed.

Lemma init_Ok (compute : rope_attrs -> result tensor2)
    (hs d mp : Z) (b : R) (neox : bool) (cache : tensor2) :
  let self := {| head_size := hs; rotary_dim := d;
                 max_position_embeddings := mp;
                 base := b; is_neox_style := neox |} in
  compute self = Ok cache ->
  RotaryEmbedding.__init__ compute hs d mp b neox
  = Ok {| RotaryEmbedding.attrs := self;
          RotaryEmbedding.cos_sin_cache := cache |}.
Proof.
  intros self H. unfold RotaryEmbedding.__init__. fold self.
  rewrite H. reflexivity.
Qed.

Lemma base_cache_Ok (self : rope_attrs) :
  (0 <= rotary_dim self)%Z ->
  (0 <= max_position_embeddings self)%Z ->
  RotaryEmbedding._compute_cos_sin_cache self
  = Ok (table keep (upto (Z.to_nat (max_position_embeddings self)))
              (base_inv_freq (base self) (rotary_dim self))).
Proof.
  intros Hd Hm. unfold RotaryEmbedding._compute_cos_sin_cache.
  rewrite compute_inv_freq_Ok by assumption. simpl.
  rewrite arange_upto by (now apply (IZR_le 0)). simpl.
  rewrite ceil_IZR. apply cat_last_cos_sin.
Qed.

Lemma base_cache_Ok_inv (self : rope_attrs) (cache : tensor2) :
  RotaryEmbedding._compute_cos_sin_cache self = Ok cache ->
  (0 <= rotary_dim self)%Z /\ (0 <= max_position_embeddings self)%Z /\
  cache = table keep (upto (Z.to_nat (max_position_embeddings self)))
                (base_inv_freq (base self) (rotary_dim self)).
Proof.
  intros H. pose proof H as H'.
  unfold RotaryEmbedding._compute_cos_sin_cache in H'.
  bind_inv H' as f Hf. apply compute_inv_freq_Ok_inv in Hf as [Hd _].
  bind_inv H' as r Hr. apply arange_Ok_inv in Hr as [Hm _].
  apply (le_IZR 0) in Hm.
  rewrite base_cache_Ok in H by assumption. injection H as <-. auto.
Qed.

Lemma linear_cache_Ok (sf : R) (self : rope_attrs) :
  (0 <= rotary_dim self)%Z ->
  0 <= IZR (max_position_embeddings self) * sf ->
  LinearScalingRotaryEmbedding._compute_cos_sin_cache sf self
  = Ok (table keep
          (div_scalar
             (upto (Z.to_nat
                      (Py.ceil (IZR (max_position_embeddings self) * sf))))
             sf)
          (base_inv_freq (base self) (rotary_dim self))).
Proof.
  intros Hd Hm. unfold LinearScalingRotaryEmbedding._compute_cos_sin_cache.
  rewrite compute_inv_freq_Ok by assumption. simpl.
  rewrite arange_upto by assumption. simpl.
  apply cat_last_cos_sin.
Qed.

Lemma linear_cache_Ok_inv (sf : R) (self : rope_attrs) (cache : tensor2) :
  LinearScalingRotaryEmbedding._compute_cos_sin_cache sf self = Ok cache ->
  (0 <= rotary_dim self)%Z /\
  0 <= IZR (max_position_embeddings self) * sf /\
  cache = table keep
            (div_scalar
               (upto (Z.to_nat
                        (Py.ceil (IZR (max_position_embeddings self) * sf))))
               sf)
            (base_inv_freq (base self) (rotary_dim self)).
Proof.
  intros H. pose proof H as H'.
  unfold LinearScalingRotaryEmbedding._compute_cos_sin_cache in H'.
  bind_inv H' as f Hf. apply compute_inv_freq_Ok_inv in Hf as [Hd _].
  bind_inv H' as r Hr. apply arange_Ok_inv in Hr as [Hm _].
  rewrite linear_cache_Ok in H by assumption. injection H as <-. auto.
Qed.

Lemma ntk_cache_Ok (sf : R) (self : rope_attrs) (b' : R) :
  DynamicNTKScalingRotaryEmbedding.ntk_base sf self = Ok b' ->
  (0 <= rotary_dim self)%Z ->
  0 <= IZR (max_position_embeddings self) * sf ->
  DynamicNTKScalingRotaryEmbedding._compute_cos_sin_cache sf self
  = Ok (table keep
          (upto (Z.to_nat
                   (Py.ceil (IZR (max_position_embeddings self) * sf))))
          (base_inv_freq b' (rotary_dim self))).
Proof.
  intros Hb Hd Hm.
  unfold DynamicNTKScalingRotaryEmbedding._compute_cos_sin_cache.
  rewrite Hb. simpl.
  rewrite compute_inv_freq_Ok by assumption. simpl.
  rewrite arange_upto by assumption. simpl.
  apply cat_last_cos_sin.
Qed.

Lemma ntk_cache_Ok_inv (sf : R) (self : rope_attrs) (cache : tensor2) :
  DynamicNTKScalingRotaryEmbedding._compute_cos_sin_cache sf self = Ok cache ->
  exists b',
    DynamicNTKScalingRotaryEmbedding.ntk_base sf self = Ok b' /\
    (0 <= rotary_dim self)%Z /\
    0 <= IZR (max_position_embeddings self) * sf /\
    cache = table keep
              (upto (Z.to_nat
                       (Py.ceil (IZR (max_position_embeddings self) * sf))))
              (base_inv_freq b' (rotary_dim self)).
Proof.
  intros H. pose proof H as H'.
  unfold DynamicNTKScalingRotaryEmbedding._compute_cos_sin_cache in H'.
  bind_inv H' as b' Hb. exists b'.
  bind_inv H' as f Hf. apply compute_inv_freq_Ok_inv in Hf as [Hd _].
  bind_inv H' as r Hr. apply arange_Ok_inv in Hr as [Hm _].
  rewrite (ntk_cache_Ok _ _ _ Hb) in H by assumption.
  injection H as <-. auto.
Qed.

(** ** The YaRN helpers *)

Lemma find_correction_dim_Ok (r : R) (dim : Z) (b : R) (mp : Z) :
  r <> 0 -> 0 < IZR mp / (r * 2 * PI) -> 0 < b -> b <> 1 ->
  _yarn_find_correction_dim r dim b mp = Ok (correction_dim r dim b mp).
Proof.
  intros Hr Hq Hb Hb1. unfold _yarn_find_correction_dim, Py.div, Py.log, Py.pi.
  pose proof PI_RGT_0 as Hpi.
  destruct (Req_dec_T (r * 2 * PI) 0) as [E|_]; [exfalso; nra|]. simpl.
  destruct (Rlt_dec 0 (IZR mp / (r * 2 * PI))) as [_|N]; [|contradiction].
  simpl. destruct (Rlt_dec 0 b) as [_|N]; [|contradiction]. simpl.
  pose proof (ln_neq_0 b Hb1 Hb) as Hl.
  destruct (Req_dec_T (2 * ln b) 0) as [E|_]; [exfalso; lra|].
  reflexivity.
Qed.

Lemma find_correction_dim_Ok_inv (r : R) (dim : Z) (b : R) (mp : Z) (x : R) :
  _yarn_find_correction_dim r dim b mp = Ok x ->
  r <> 0 /\ 0 < IZR mp / (r * 2 * PI) /\ 0 < b /\ b <> 1 /\
  x = correction_dim r dim b mp.
Proof.
  unfold _yarn_find_correction_dim, Py.div, Py.log, Py.pi. intros H.
  destruct (Req_dec_T (r * 2 * PI) 0) as [E|Hr]; [discriminate|].
  simpl in H.
  destruct (Rlt_dec 0 (IZR mp / (r * 2 * PI))) as [Hq|_]; [|discriminate].
  simpl in H. destruct (Rlt_dec 0 b) as [Hb|_]; [|discriminate].
  simpl in H.
  destruct (Req_dec_T (2 * ln b) 0) as [E|Hl]; [discriminate|].
  injection H as <-. repeat split; auto.
  - intros ->. apply Hr. ring.
  - intros ->. apply Hl. rewrite ln_1. ring.
Qed.

Lemma find_correction_range_Ok_inv (lo hi : R) (dim : Z) (b : R) (mp : Z)
    (low high : Z) :
  _yarn_find_correction_range lo hi dim b mp = Ok (low, high) ->
  low = Z.max (Py.floor (correction_dim lo dim b mp)) 0 /\
  high = Z.min (Py.ceil (correction_dim hi dim b mp)) (dim - 1).
Proof.
  unfold _yarn_find_correction_range. intros H.
  bind_inv H as dl Hdl. bind_inv H as dh Hdh.
  apply find_correction_dim_Ok_inv in Hdl as (_ & _ & _ & _ & ->).
  apply find_correction_dim_Ok_inv in Hdh as (_ & _ & _ & _ & ->).
  injection H as <- <-. auto.
Qed.

Lemma find_correction_range_Ok (lo hi : R) (dim : Z) (b : R) (mp : Z) :
  0 < lo -> 0 < hi -> (0 < mp)%Z -> 0 < b -> b <> 1 ->
  _yarn_find_correction_range lo hi dim b mp
  = Ok (Z.max (Py.floor (correction_dim lo dim b mp)) 0,
        Z.min (Py.ceil (correction_dim hi dim b mp)) (dim - 1)).
Proof.
  intros Hlo Hhi Hmp Hb Hb1. unfold _yarn_find_correction_range.
  pose proof PI_RGT_0 as Hpi. apply (IZR_lt 0) in Hmp.
  rewrite !find_correction_dim_Ok; auto; try lra.
  - apply Rdiv_lt_0_compat; [lra | nra].
  - apply Rdiv_lt_0_compat; [lra | nra].
Qed.

Lemma yarn_get_mscale_Ok (scale : R) :
  _yarn_get_mscale scale = Ok (mscale_factor scale).
Proof.
  unfold _yarn_get_mscale, mscale_factor, Py.log.
  destruct (Rle_dec scale 1) as [H|H]; [reflexivity|].
  destruct (Rlt_dec 0 scale) as [_|N]; [reflexivity | exfalso; lra].
Qed.

(** The denominator of the ramp is never zero. *)
Lemma ramp_denominator (low high : Z) :
  ramp_high (IZR low) (IZR high) - IZR low
  = if Z.eq_dec low high then 0.001 else IZR high - IZR low.
Proof.
  unfold ramp_high.
  destruct (Req_dec_T (IZR low) (IZR high)) as [E|N];
    destruct (Z.eq_dec low high) as [E'|N'].
  - subst. lra.
  - apply eq_IZR in E. contradiction.
  - subst. contradiction.
  - reflexivity.
Qed.

Lemma ramp_denominator_neq_0 (low high : Z) :
  ramp_high (IZR low) (IZR high) - IZR low <> 0.
Proof.
  rewrite ramp_denominator. destruct (Z.eq_dec low high) as [E|N]; [lra|].
  intros H. apply N. apply eq_IZR. lra.
Qed.

Lemma zip_with_map (f : R -> R -> R) (g h : nat -> R) (l : list nat) :
  zip_with f (map g l) (map h l) = map (fun i => f (g i) (h i)) l.
Proof. induction l as [|i l IH]; simpl; [reflexivity | now rewrite IH]. Qed.

Lemma broadcast_map (f : R -> R -> R) (g h : nat -> R) (l : list nat) :
  broadcast f (map g l) (map h l) = Ok (map (fun i => f (g i) (h i)) l).
Proof.
  unfold broadcast. rewrite !length_map, Nat.eqb_refl.
  now rewrite zip_with_map.
Qed.

Lemma inv_freq_mask_Ok (y : yarn_attrs) (self : rope_attrs) (low high : Z) :
  (0 <= rotary_dim self)%Z ->
  YaRNScalingRotaryEmbedding.inv_freq_mask y self low high
  = Ok (map (yarn_mask_at low high (extrapolation_factor y))
            (seq 0 (Z.to_nat (rotary_dim self / 2)))).
Proof.
  intros Hd.
  assert (Hh : (0 <= rotary_dim self / 2)%Z) by (apply Z.div_pos; lia).
  unfold YaRNScalingRotaryEmbedding.inv_freq_mask, _yarn_linear_ramp_mask.
  rewrite arange_upto by (now apply (IZR_le 0)). simpl.
  rewrite ceil_IZR.
  unfold mul_scalar, scalar_sub, clamp, div_scalar, sub_scalar, upto.
  rewrite !map_map. reflexivity.
Qed.

Lemma yarn_inv_freq_Ok (y : yarn_attrs) (self : rope_attrs) (sf : R)
    (low high : Z) :
  Z.even (rotary_dim self) = true ->
  (0 <= rotary_dim self)%Z ->
  YaRNScalingRotaryEmbedding.correction_range y self = Ok (low, high) ->
  YaRNScalingRotaryEmbedding._compute_inv_freq y self sf
  = Ok (yarn_inv_freq (base self) (rotary_dim self) sf low high
          (extrapolation_factor y)).
Proof.
  intros Hev Hd Hr. unfold YaRNScalingRotaryEmbedding._compute_inv_freq.
  rewrite arange3_evens by assumption. simpl.
  rewrite Hr. simpl. rewrite inv_freq_mask_Ok by assumption. simpl.
  unfold evens. rewrite (even_half _ Hev).
  unfold mul, add, scalar_sub, scalar_div, scalar_mul, scalar_pow, div_scalar,
    torch_pow.
  rewrite !map_map, !broadcast_map. simpl. rewrite broadcast_map.
  reflexivity.
Qed.

Lemma yarn_inv_freq_Ok_inv (y : yarn_attrs) (self : rope_attrs) (sf : R)
    (f : tensor1) :
  Z.even (rotary_dim self) = true ->
  YaRNScalingRotaryEmbedding._compute_inv_freq y self sf = Ok f ->
  exists low high,
    YaRNScalingRotaryEmbedding.correction_range y self = Ok (low, high) /\
    (0 <= rotary_dim self)%Z /\
    f = yarn_inv_freq (base self) (rotary_dim self) sf low high
          (extrapolation_factor y).
Proof.
  intros Hev H. pose proof H as H'.
  unfold YaRNScalingRotaryEmbedding._compute_inv_freq in H'.
  bind_inv H' as r Hr. apply arange3_evens_Ok_inv in Hr as [Hd _].
  bind_inv H' as lh Hlh. destruct lh as [low high].
  exists low, high. rewrite (yarn_inv_freq_Ok _ _ _ _ _ Hev Hd Hlh) in H.
  injection H as <-. auto.
Qed.

Lemma nth_map_seq (g : nat -> R) (n j : nat) :
  (j < n)%nat -> nth j (map g (seq 0 n)) 0 = g j.
Proof.
  intros H. rewrite (nth_indep _ 0 (g 0%nat))
    by now rewrite length_map, length_seq.
  rewrite map_nth, seq_nth by assumption. reflexivity.
Qed.

Lemma nth_zip_with (f : R -> R -> R) (a b : tensor1) (j : nat) :
  (j < length a)%nat -> (j < length b)%nat ->
  nth j (zip_with f a b) 0 = f (nth j a 0) (nth j b 0) /\
  (j < length (zip_with f a b))%nat.
Proof.
  revert b j. induction a as [|x a IH]; intros [|y b] j Ha Hb;
    simpl in *; try lia.
  destruct j as [|j]; [split; [reflexivity | lia]|].
  destruct (IH b j) as [E L]; try lia. split; [exact E | lia].
Qed.

(** Where both operands of a broadcast operation have an entry [j], the
    result has one, computed from these two. *)
Lemma broadcast_nth (f : R -> R -> R) (a b c : tensor1) (j : nat) :
  broadcast f a b = Ok c ->
  (j < length a)%nat -> (j < length b)%nat ->
  nth j c 0 = f (nth j a 0) (nth j b 0) /\ (j < length c)%nat.
Proof.
  unfold broadcast. intros H Ha Hb.
  destruct (Nat.eqb (length a) (length b)).
  { injection H as <-. now apply nth_zip_with. }
  destruct (Nat.eqb (length a) 1) eqn:E1.
  { apply Nat.eqb_eq in E1. injection H as <-.
    destruct a as [|x [|]]; try discriminate. simpl in *.
    assert (j = 0%nat) by lia. subst j. rewrite length_map. split; [|lia].
    rewrite (nth_indep _ 0 (f x 0)) by now rewrite length_map.
    apply map_nth. }
  destruct (Nat.eqb (length b) 1) eqn:E2; [|discriminate].
  apply Nat.eqb_eq in E2. injection H as <-.
  destruct b as [|y [|]]; try discriminate. simpl in *.
  assert (j = 0%nat) by lia. subst j. rewrite length_map. split; [|lia].
  rewrite (nth_indep _ 0 ((fun x => f x y) 0)) by now rewrite length_map.
  apply (map_nth (fun x => f x y)).
Qed.

(** Whatever the parity of [rotary_dim], the entries of the YaRN inverse
    frequencies below [rotary_dim // 2] are the blended ones. *)
Lemma yarn_inv_freq_nth (y : yarn_attrs) (self : rope_attrs) (sf : R)
    (f : tensor1) :
  YaRNScalingRotaryEmbedding._compute_inv_freq y self sf = Ok f ->
  exists low high,
    YaRNScalingRotaryEmbedding.correction_range y self = Ok (low, high) /\
    forall j, (j < Z.to_nat (rotary_dim self / 2))%nat ->
      nth j f 0
      = yarn_inv_freq_at (base self) (rotary_dim self) sf low high
          (extrapolation_factor y) j.
Proof.
  intros H. unfold YaRNScalingRotaryEmbedding._compute_inv_freq in H.
  bind_inv H as r Hr. apply arange3_evens_Ok_inv in Hr as [Hd ->].
  bind_inv H as lh Hlh. destruct lh as [low high]. exists low, high.
  split; [exact Hlh|].
  bind_inv H as m Hm. rewrite inv_freq_mask_Ok in Hm by assumption.
  injection Hm as <-.
  bind_inv H as a Ha. bind_inv H as c Hc. intros j Hj.
  unfold mul, add, scalar_sub, scalar_div, scalar_mul, scalar_pow, div_scalar,
    torch_pow, evens in Ha, Hc.
  repeat rewrite map_map in Ha. repeat rewrite map_map in Hc.
  assert (Hj1 : (j < Z.to_nat ((rotary_dim self + 1) / 2))%nat).
  { assert (rotary_dim self / 2 <= (rotary_dim self + 1) / 2)%Z
      by (apply Z.div_le_mono; lia).
    lia. }
  destruct (broadcast_nth _ _ _ _ j Ha) as [Ea La];
    [now rewrite length_map, length_seq ..|].
  destruct (broadcast_nth _ _ _ _ j Hc) as [Ec Lc];
    [now rewrite length_map, length_seq ..|].
  destruct (broadcast_nth _ _ _ _ j H La Lc) as [Ef _].
  rewrite Ef, Ea, Ec, !nth_map_seq by assumption.
  reflexivity.
Qed.

Lemma length_yarn_inv_freq (b : R) (d : Z) (sf : R) (low high : Z) (ef : R) :
  length (yarn_inv_freq b d sf low high ef) = Z.to_nat (d / 2).
Proof. unfold yarn_inv_freq. now rewrite length_map, length_seq. Qed.

Lemma nth_yarn_inv_freq (b : R) (d : Z) (sf : R) (low high : Z) (ef : R)
    (j : nat) :
  (j < Z.to_nat (d / 2))%nat ->
  nth j (yarn_inv_freq b d sf low high ef) 0
  = yarn_inv_freq_at b d sf low high ef j.
Proof.
  intros H. unfold yarn_inv_freq.
  rewrite (nth_indep _ 0 (yarn_inv_freq_at b d sf low high ef 0))
    by now rewrite length_map, length_seq.
  rewrite map_nth, seq_nth by assumption. reflexivity.
Qed.

Lemma yarn_cache_Ok (y : yarn_attrs) (self : rope_attrs) (f : tensor1) :
  YaRNScalingRotaryEmbedding._compute_inv_freq y self (scaling_factor y)
  = Ok f ->
  0 <= IZR (max_position_embeddings self) * scaling_factor y ->
  YaRNScalingRotaryEmbedding._compute_cos_sin_cache y self
  = Ok (table (fun x => x * mscale y)
          (upto (Z.to_nat
                   (Py.ceil (IZR (max_position_embeddings self)
                             * scaling_factor y))))
          f).
Proof.
  intros Hf Hm. unfold YaRNScalingRotaryEmbedding._compute_cos_sin_cache.
  rewrite Hf. simpl. rewrite arange_upto by assumption. simpl.
  apply cat_last_cos_sin_scaled.
Qed.

Lemma yarn_cache_Ok_inv (y : yarn_attrs) (self : rope_attrs)
    (cache : tensor2) :
  YaRNScalingRotaryEmbedding._compute_cos_sin_cache y self = Ok cache ->
  exists f,
    YaRNScalingRotaryEmbedding._compute_inv_freq y self (scaling_factor y)
    = Ok f /\
    0 <= IZR (max_position_embeddings self) * scaling_factor y /\
    cache = table (fun x => x * mscale y)
              (upto (Z.to_nat
                       (Py.ceil (IZR (max_position_embeddings self)
                                 * scaling_factor y))))
              f.
Proof.
  intros H. pose proof H as H'.
  unfold YaRNScalingRotaryEmbedding._compute_cos_sin_cache in H'.
  bind_inv H' as f Hf. exists f.
  bind_inv H' as r Hr. apply arange_Ok_inv in Hr as [Hm _].
  rewrite (yarn_cache_Ok _ _ _ Hf Hm) in H. injection H as <-. auto.
Qed.

(** ** Rows of a cache *)

Lemma table_row_is (g : R -> R) (f : tensor1) (tp : R) :
  row_is (table_row g f tp) g tp f.
Proof.
  split; [apply length_table_row|]. intros j Hj. split.
  - now apply nth_table_row_cos.
  - now apply nth_table_row_sin.
Qed.

Lemma nth_div_scalar_upto (n p : nat) (c : R) :
  (p < n)%nat -> nth p (div_scalar (upto n) c) 0 = INR p / c.
Proof.
  intros H. unfold div_scalar.
  rewrite (nth_indep _ 0 ((fun x => x / c) 0))
    by now rewrite length_map, length_upto.
  rewrite (map_nth (fun x => x / c)). now rewrite nth_upto.
Qed.

Lemma length_div_scalar (t : tensor1) (c : R) :
  length (div_scalar t c) = length t.
Proof. unfold div_scalar. apply length_map. Qed.

Ltac lengths :=
  rewrite ?length_table, ?length_div_scalar, ?length_upto in *.

Lemma ceil_nonneg (x : R) : 0 <= x -> (0 <= Py.ceil x)%Z.
Proof.
  intros H. apply le_IZR. destruct (ceil_bounds x). lra.
Qed.

(** ** The modified base of dynamic NTK scaling *)

Lemma ntk_radicand_pos (sf : R) (mp : Z) :
  IZR mp <> 0 -> 0 < sf * (IZR mp * sf) / IZR mp - (sf - 1).
Proof.
  intros H. replace (sf * (IZR mp * sf) / IZR mp) with (sf * sf)
    by (field; assumption).
  nra.
Qed.

Lemma ntk_base_Ok (sf : R) (self : rope_attrs) :
  max_position_embeddings self <> 0%Z ->
  rotary_dim self <> 2%Z ->
  DynamicNTKScalingRotaryEmbedding.ntk_base sf self
  = Ok (ntk_base_value (base self) sf (max_position_embeddings self)
          (rotary_dim self)).
Proof.
  intros Hm Hd. unfold DynamicNTKScalingRotaryEmbedding.ntk_base, Py.div.
  assert (Hm' : IZR (max_position_embeddings self) <> 0)
    by (intros E; apply eq_IZR in E; contradiction).
  destruct (Req_dec_T (IZR (max_position_embeddings self)) 0) as [E|_];
    [contradiction|]. simpl.
  destruct (Req_dec_T (IZR (rotary_dim self - 2)) 0) as [E|_].
  { apply eq_IZR in E. lia. }
  simpl. unfold Py.pow.
  destruct (Rlt_dec 0 _) as [_|N]; [reflexivity|].
  exfalso. apply N. now apply ntk_radicand_pos.
Qed.

Lemma ntk_base_Ok_inv (sf : R) (self : rope_attrs) (b' : R) :
  DynamicNTKScalingRotaryEmbedding.ntk_base sf self = Ok b' ->
  max_position_embeddings self <> 0%Z /\ rotary_dim self <> 2%Z /\
  b' = ntk_base_value (base self) sf (max_position_embeddings self)
         (rotary_dim self).
Proof.
  intros H. pose proof H as H'.
  unfold DynamicNTKScalingRotaryEmbedding.ntk_base, Py.div in H'.
  destruct (Req_dec_T (IZR (max_position_embeddings self)) 0) as [E|Hm];
    [discriminate|]. simpl in H'.
  destruct (Req_dec_T (IZR (rotary_dim self - 2)) 0) as [E|Hd];
    [discriminate|]. clear H'.
  assert (Hm' : max_position_embeddings self <> 0%Z)
    by (intros E; apply Hm; now rewrite E).
  assert (Hd' : rotary_dim self <> 2%Z)
    by (intros E; apply Hd; now rewrite E).
  rewrite ntk_base_Ok in H by assumption. injection H as <-. auto.
Qed.

Lemma Rpower_one_base (y : R) : Rpower 1 y = 1.
Proof. unfold Rpower. now rewrite ln_1, Rmult_0_r, exp_0. Qed.

Lemma ntk_base_value_one (b : R) (mp d : Z) :
  mp <> 0%Z -> ntk_base_value b 1 mp d = b.
Proof.
  intros Hm. unfold ntk_base_value.
  assert (IZR mp <> 0) by (intros E; apply eq_IZR in E; contradiction).
  replace (1 * (IZR mp * 1) / IZR mp - (1 - 1)) with 1 by (field; assumption).
  rewrite Rpower_one_base. ring.
Qed.

(** ** The constructors *)

Lemma linear_init_Ok_inv (hs d mp : Z) (b : R) (neox : bool) (sf : R)
    (obj : LinearScalingRotaryEmbedding.t) :
  LinearScalingRotaryEmbedding.__init__ hs d mp b neox sf = Ok obj ->
  LinearScalingRotaryEmbedding.scaling_factor obj = sf /\
  RotaryEmbedding.__init__
    (LinearScalingRotaryEmbedding._compute_cos_sin_cache sf) hs d mp b neox
  = Ok (LinearScalingRotaryEmbedding.super obj).
Proof.
  unfold LinearScalingRotaryEmbedding.__init__. intros H.
  bind_inv H as s Hs. injection H as <-. simpl. auto.
Qed.

Lemma ntk_init_Ok_inv (hs d mp : Z) (b : R) (neox : bool) (sf : R)
    (obj : DynamicNTKScalingRotaryEmbedding.t) :
  DynamicNTKScalingRotaryEmbedding.__init__ hs d mp b neox sf = Ok obj ->
  DynamicNTKScalingRotaryEmbedding.scaling_factor obj = sf /\
  RotaryEmbedding.__init__
    (DynamicNTKScalingRotaryEmbedding._compute_cos_sin_cache sf)
    hs d mp b neox
  = Ok (DynamicNTKScalingRotaryEmbedding.super obj).
Proof.
  unfold DynamicNTKScalingRotaryEmbedding.__init__. intros H.
  bind_inv H as s Hs. injection H as <-. simpl. auto.
Qed.

Lemma yarn_init_Ok_inv (hs d mp : Z) (b : R) (neox : bool)
    (sf ef af bf bs : R) (obj : YaRNScalingRotaryEmbedding.t) :
  YaRNScalingRotaryEmbedding.__init__ hs d mp b neox sf ef af bf bs = Ok obj ->
  YaRNScalingRotaryEmbedding.yarn obj = yarn_self sf ef af bf bs /\
  RotaryEmbedding.__init__
    (YaRNScalingRotaryEmbedding._compute_cos_sin_cache
       (yarn_self sf ef af bf bs)) hs d mp b neox
  = Ok (YaRNScalingRotaryEmbedding.super obj).
Proof.
  unfold YaRNScalingRotaryEmbedding.__init__. intros H.
  rewrite yarn_get_mscale_Ok in H. simpl in H.
  bind_inv H as s Hs. injection H as <-. simpl. auto.
Qed.

(** ** Linear scaling *)

(** C3: the linear-scaling cache has one row per position
    [p < ceil(max_position_embeddings * scaling_factor)] and row [p] is built
    from the compressed position [p / scaling_factor] and the inverse
    frequencies of the base variant; with [scaling_factor = 2] (where the
    cache is built for every [rotary_dim >= 0] and
    [max_position_embeddings >= 0]) row [2 p] equals row [p] of the
    base-variant cache, for every [p < max_position_embeddings]. *)
Theorem C3_linear_compression (self : rope_attrs) :
  (forall sf cache,
     LinearScalingRotaryEmbedding._compute_cos_sin_cache sf self = Ok cache ->
     length cache
     = Z.to_nat (Py.ceil (IZR (max_position_embeddings self) * sf)) /\
     exists inv_freq,
       RotaryEmbedding._compute_inv_freq self (base self) = Ok inv_freq /\
       forall p, (p < length cache)%nat ->
         row_is (nth p cache []) keep (INR p / sf) inv_freq) /\
  ((0 <= rotary_dim self)%Z -> (0 <= max_position_embeddings self)%Z ->
   exists cache2,
     LinearScalingRotaryEmbedding._compute_cos_sin_cache 2 self = Ok cache2) /\
  (forall cache2,
     LinearScalingRotaryEmbedding._compute_cos_sin_cache 2 self = Ok cache2 ->
     exists cache1,
       RotaryEmbedding._compute_cos_sin_cache self = Ok cache1 /\
       length cache2 = (2 * length cache1)%nat /\
       forall p, (0 <= p < max_position_embeddings self)%Z ->
         nth (Z.to_nat (2 * p)) cache2 [] = nth (Z.to_nat p) cache1 []).
Proof.
  split; [|split].
  - intros sf cache H.
    apply linear_cache_Ok_inv in H as (Hd & Hm & ->).
    lengths. split; [reflexivity|].
    exists (base_inv_freq (base self) (rotary_dim self)).
    split; [now apply compute_inv_freq_Ok|].
    intros p Hp. rewrite nth_table by (now lengths).
    rewrite nth_div_scalar_upto by assumption. apply table_row_is.
  - intros Hd Hm. eexists. apply linear_cache_Ok; [assumption|].
    apply (IZR_le 0) in Hm. lra.
  - intros cache2 H.
    apply linear_cache_Ok_inv in H as (Hd & Hm & ->).
    assert (Hm' : (0 <= max_position_embeddings self)%Z)
      by (apply le_IZR; lra).
    eexists. split; [now apply base_cache_Ok|].
    replace (IZR (max_position_embeddings self) * 2)
      with (IZR (max_position_embeddings self * 2))
      by (rewrite mult_IZR; reflexivity).
    rewrite ceil_IZR. lengths. split; [lia|].
    intros p Hp. rewrite !nth_table by (lengths; lia).
    rewrite nth_div_scalar_upto, nth_upto by lia.
    f_equal. rewrite !INR_IZR_INZ, !Z2Nat.id, mult_IZR by lia. field.
Qed.

Lemma C3_linear_compression_witness :
  exists cache2 cache1,
    LinearScalingRotaryEmbedding._compute_cos_sin_cache 2
      {| head_size := 4; rotary_dim := 4; max_position_embeddings := 8;
         base := 10000; is_neox_style := true |} = Ok cache2 /\
    RotaryEmbedding._compute_cos_sin_cache
      {| head_size := 4; rotary_dim := 4; max_position_embeddings := 8;
         base := 10000; is_neox_style := true |} = Ok cache1 /\
    nth 6 cache2 [] = nth 3 cache1 [].
Proof.
  destruct (C3_linear_compression
              {| head_size := 4; rotary_dim := 4; max_position_embeddings := 8;
                 base := 10000; is_neox_style := true |})
    as (_ & Htot & Heq).
  destruct Htot as [cache2 H2]; [simpl; lia | simpl; lia |].
  destruct (Heq cache2 H2) as (cache1 & H1 & _ & Hrows).
  exists cache2, cache1. split; [exact H2|]. split; [exact H1|].
  apply (Hrows 3%Z). simpl. lia.
Defined.

(** ** Dynamic NTK scaling *)

(** C4: with [rotary_dim > 2] the dynamic-NTK cache (built whenever
    [max_position_embeddings > 0] and [scaling_factor >= 0]) takes its
    inverse frequencies from [_compute_inv_freq] at the modified base
    [base' = base * ((scaling_factor * max_len / max_position_embeddings)
    - (scaling_factor - 1)) ^ (rotary_dim / (rotary_dim - 2))], where
    [max_len = max_position_embeddings * scaling_factor], so entry [i] is
    [1 / base' ^ (2 i / rotary_dim)]; row [p] uses the position [p] itself,
    for [p] below [ceil(max_len)]. *)
Theorem C4_ntk_modified_base (sf : R) (self : rope_attrs) :
  (2 < rotary_dim self)%Z ->
  let max_len := IZR (max_position_embeddings self) * sf in
  let base' :=
    base self
    * Rpower (sf * max_len / IZR (max_position_embeddings self) - (sf - 1))
             (IZR (rotary_dim self) / IZR (rotary_dim self - 2)) in
  ((0 < max_position_embeddings self)%Z -> 0 <= sf ->
   exists cache,
     DynamicNTKScalingRotaryEmbedding._compute_cos_sin_cache sf self
     = Ok cache) /\
  (forall cache,
     DynamicNTKScalingRotaryEmbedding._compute_cos_sin_cache sf self
     = Ok cache ->
     length cache = Z.to_nat (Py.ceil max_len) /\
     exists inv_freq,
       RotaryEmbedding._compute_inv_freq self base' = Ok inv_freq /\
       (forall i, (i < length inv_freq)%nat ->
          nth i inv_freq 0
          = 1 / Rpower base' (IZR (2 * Z.of_nat i) / IZR (rotary_dim self))) /\
       forall p, (p < length cache)%nat ->
         row_is (nth p cache []) keep (INR p) inv_freq).
Proof.
  intros Hd max_len base'. split.
  - intros Hm Hsf. eexists. eapply ntk_cache_Ok.
    + apply ntk_base_Ok; lia.
    + lia.
    + apply (IZR_lt 0) in Hm. nra.
  - intros cache H.
    apply ntk_cache_Ok_inv in H as (b' & Hb & _ & Hm & ->).
    apply ntk_base_Ok_inv in Hb as (_ & _ & ->).
    fold max_len. change (ntk_base_value _ _ _ _) with base'.
    lengths. split; [reflexivity|].
    exists (base_inv_freq base' (rotary_dim self)).
    split; [apply compute_inv_freq_Ok; lia|]. split.
    + intros i Hi. rewrite length_base_inv_freq in Hi.
      now apply nth_base_inv_freq.
    + intros p Hp. rewrite nth_table by (now lengths).
      rewrite nth_upto by assumption. apply table_row_is.
Qed.

Lemma C4_ntk_modified_base_witness :
  exists cache,
    DynamicNTKScalingRotaryEmbedding._compute_cos_sin_cache 2
      {| head_size := 4; rotary_dim := 4; max_position_embeddings := 8;
         base := 10000; is_neox_style := true |} = Ok cache /\
    length cache = Z.to_nat (Py.ceil (8 * 2)).
Proof.
  destruct (C4_ntk_modified_base 2
              {| head_size := 4; rotary_dim := 4; max_position_embeddings := 8;
                 base := 10000; is_neox_style := true |})
    as [Htot Hspec]; [simpl; lia|].
  destruct Htot as [cache H]; [simpl; lia | lra |].
  exists cache. split; [exact H|]. apply (Hspec cache H).
Defined.

(** C5: with [scaling_factor = 1] and an even [rotary_dim > 2], every
    dynamic-NTK construction (there is one whenever
    [max_position_embeddings > 0]) holds exactly the object, and so exactly
    the cache, that the base variant builds from the same [head_size],
    [rotary_dim], [max_position_embeddings] and [base]. *)
Theorem C5_ntk_scale_one_is_base (hs d mp : Z) (b : R) (neox : bool) :
  (2 < d)%Z -> Z.even d = true ->
  ((0 < mp)%Z ->
   exists obj,
     DynamicNTKScalingRotaryEmbedding.__init__ hs d mp b neox 1 = Ok obj) /\
  (forall obj,
     DynamicNTKScalingRotaryEmbedding.__init__ hs d mp b neox 1 = Ok obj ->
     exists obj0,
       RotaryEmbedding.new hs d mp b neox = Ok obj0 /\
       RotaryEmbedding.cos_sin_cache
         (DynamicNTKScalingRotaryEmbedding.super obj)
       = RotaryEmbedding.cos_sin_cache obj0).
Proof.
  intros Hd Hev.
  set (self := {| head_size := hs; rotary_dim := d;
                  max_position_embeddings := mp; base := b;
                  is_neox_style := neox |}).
  assert (Hcache : mp <> 0%Z -> (0 <= mp)%Z ->
            DynamicNTKScalingRotaryEmbedding._compute_cos_sin_cache 1 self
            = RotaryEmbedding._compute_cos_sin_cache self).
  { intros Hm Hm'. rewrite base_cache_Ok by (simpl; lia).
    rewrite (ntk_cache_Ok 1 self b).
    - simpl. now rewrite Rmult_1_r, ceil_IZR.
    - rewrite ntk_base_Ok by (simpl; lia). simpl.
      now rewrite ntk_base_value_one.
    - simpl; lia.
    - simpl. apply (IZR_le 0) in Hm'. lra. }
  split.
  - intros Hm. unfold DynamicNTKScalingRotaryEmbedding.__init__.
    assert (Hc : DynamicNTKScalingRotaryEmbedding._compute_cos_sin_cache 1 self
                 = Ok (table keep (upto (Z.to_nat mp)) (base_inv_freq b d))).
    { rewrite Hcache by lia. apply base_cache_Ok; simpl; lia. }
    rewrite (init_Ok _ hs d mp b neox _ Hc). simpl. eexists. reflexivity.
  - intros obj H. apply ntk_init_Ok_inv in H as [_ H].
    exists (DynamicNTKScalingRotaryEmbedding.super obj).
    split; [|reflexivity].
    pose proof (init_Ok_inv _ _ _ _ _ _ _ H) as [Ha Hc].
    rewrite Ha in Hc. fold self in Hc.
    pose proof Hc as Hc'.
    apply ntk_cache_Ok_inv in Hc' as (b' & Hb & _ & Hm & _).
    apply ntk_base_Ok_inv in Hb as (Hm0 & _ & _). simpl in Hm0, Hm.
    assert (Hm' : (0 <= mp)%Z) by (apply le_IZR; lra).
    rewrite (Hcache Hm0 Hm') in Hc.
    unfold RotaryEmbedding.new.
    rewrite (init_Ok _ hs d mp b neox _ Hc).
    destruct (DynamicNTKScalingRotaryEmbedding.super obj) as [a c].
    simpl in Ha. subst a. reflexivity.
Qed.

Lemma C5_ntk_scale_one_is_base_witness :
  exists obj obj0,
    DynamicNTKScalingRotaryEmbedding.__init__ 4 4 8 10000 true 1 = Ok obj /\
    RotaryEmbedding.new 4 4 8 10000 true = Ok obj0 /\
    RotaryEmbedding.cos_sin_cache (DynamicNTKScalingRotaryEmbedding.super obj)
    = RotaryEmbedding.cos_sin_cache obj0.
Proof.
  destruct (C5_ntk_scale_one_is_base 4 4 8 10000 true)
    as [Htot Heq]; [lia | reflexivity |].
  destruct Htot as [obj H]; [lia|].
  destruct (Heq obj H) as (obj0 & H0 & Hc).
  exists obj, obj0. auto.
Defined.

(** ** YaRN scaling *)

Lemma yarn_correction_range_Ok (y : yarn_attrs) (self : rope_attrs) :
  0 < beta_fast y -> 0 < beta_slow y ->
  (0 < max_position_embeddings self)%Z -> 0 < base self -> base self <> 1 ->
  exists low high,
    YaRNScalingRotaryEmbedding.correction_range y self = Ok (low, high).
Proof.
  intros. unfold YaRNScalingRotaryEmbedding.correction_range.
  rewrite find_correction_range_Ok by assumption. eauto.
Qed.

Lemma yarn_init_Ok (hs d mp : Z) (b : R) (neox : bool) (sf ef af bf bs : R) :
  Z.even d = true -> (0 <= d)%Z -> (0 < mp)%Z -> 0 <= sf ->
  0 < bf -> 0 < bs -> 0 < b -> b <> 1 ->
  exists obj,
    YaRNScalingRotaryEmbedding.__init__ hs d mp b neox sf ef af bf bs = Ok obj.
Proof.
  intros Hev Hd Hm Hsf Hbf Hbs Hb Hb1.
  set (y := yarn_self sf ef af bf bs).
  set (self := {| head_size := hs; rotary_dim := d;
                  max_position_embeddings := mp; base := b;
                  is_neox_style := neox |}).
  destruct (yarn_correction_range_Ok y self) as (low & high & Hr);
    try assumption.
  pose proof (yarn_inv_freq_Ok y self sf low high Hev Hd Hr) as Hf.
  assert (Hpos : 0 <= IZR (max_position_embeddings self) * scaling_factor y).
  { simpl. apply (IZR_lt 0) in Hm. nra. }
  pose proof (yarn_cache_Ok y self _ Hf Hpos) as Hc.
  unfold YaRNScalingRotaryEmbedding.__init__.
  rewrite yarn_get_mscale_Ok. simpl. fold (yarn_self sf ef af bf bs). fold y.
  rewrite (init_Ok _ hs d mp b neox _ Hc). simpl. eexists. reflexivity.
Qed.

(** C6: the YaRN variant asks for the correction range with [beta_fast] as
    the low and [beta_slow] as the high rotation count (it gets one whenever
    both, [max_position_embeddings] and [base] are positive and
    [base <> 1]); the range is [low = max(floor(dim(beta_fast)), 0)] and
    [high = min(ceil(dim(beta_slow)), rotary_dim - 1)] with
    [dim(r) = rotary_dim * ln(max_position_embeddings / (r * 2 * pi))
              / (2 * ln(base))]. *)
Theorem C6_yarn_correction_range (y : yarn_attrs) (self : rope_attrs) :
  let dim := fun r : R =>
    IZR (rotary_dim self)
    * ln (IZR (max_position_embeddings self) / (r * 2 * PI))
    / (2 * ln (base self)) in
  YaRNScalingRotaryEmbedding.correction_range y self
  = _yarn_find_correction_range (beta_fast y) (beta_slow y) (rotary_dim self)
      (base self) (max_position_embeddings self) /\
  (0 < beta_fast y -> 0 < beta_slow y ->
   (0 < max_position_embeddings self)%Z -> 0 < base self -> base self <> 1 ->
   exists low high,
     YaRNScalingRotaryEmbedding.correction_range y self = Ok (low, high)) /\
  (forall low high,
     YaRNScalingRotaryEmbedding.correction_range y self = Ok (low, high) ->
     low = Z.max (Py.floor (dim (beta_fast y))) 0 /\
     high = Z.min (Py.ceil (dim (beta_slow y))) (rotary_dim self - 1)).
Proof.
  intros dim. split; [reflexivity|]. split.
  - apply yarn_correction_range_Ok.
  - intros low high H. apply find_correction_range_Ok_inv in H. exact H.
Qed.

Lemma C6_yarn_correction_range_witness :
  exists low high,
    YaRNScalingRotaryEmbedding.correction_range
      (yarn_self 4 1 1 32 1)
      {| head_size := 128; rotary_dim := 128; max_position_embeddings := 2048;
         base := 10000; is_neox_style := true |} = Ok (low, high) /\
    low = Z.max (Py.floor (128 * ln (2048 / (32 * 2 * PI))
                           / (2 * ln 10000))) 0 /\
    high = Z.min (Py.ceil (128 * ln (2048 / (1 * 2 * PI))
                           / (2 * ln 10000))) (128 - 1).
Proof.
  destruct (C6_yarn_correction_range
              (yarn_self 4 1 1 32 1)
              {| head_size := 128; rotary_dim := 128;
                 max_position_embeddings := 2048;
                 base := 10000; is_neox_style := true |})
    as (_ & Htot & Hspec).
  destruct Htot as (low & high & H); simpl; try lra; try lia.
  exists low, high. split; [exact H|]. exact (Hspec low high H).
Defined.

(** C7: at every half-channel index [j] in [[0, rotary_dim / 2)] the YaRN
    inverse-frequency vector (built whenever [rotary_dim] is even and not
    negative and the correction range exists) holds
    [inv_freq_interp * (1 - inv_freq_mask) + inv_freq_extrap * inv_freq_mask]
    with [inv_freq_mask = (1 - clamp((j - low) / (high - low), 0, 1))
    * extrapolation_factor]; the denominator is [0.001] when [low = high]
    and is never zero. *)
Theorem C7_yarn_blend (y : yarn_attrs) (self : rope_attrs) (sf : R) :
  (Z.even (rotary_dim self) = true -> (0 <= rotary_dim self)%Z ->
   0 < beta_fast y -> 0 < beta_slow y ->
   (0 < max_position_embeddings self)%Z -> 0 < base self -> base self <> 1 ->
   exists f, YaRNScalingRotaryEmbedding._compute_inv_freq y self sf = Ok f) /\
  (forall f,
     YaRNScalingRotaryEmbedding._compute_inv_freq y self sf = Ok f ->
     exists low high,
       YaRNScalingRotaryEmbedding.correction_range y self = Ok (low, high) /\
       let denom := if Z.eq_dec low high then 0.001 else IZR high - IZR low in
       denom <> 0 /\
       forall j : Z, (0 <= j < rotary_dim self / 2)%Z ->
         let pos_freq :=
           Rpower (base self) (IZR (2 * j) / IZR (rotary_dim self)) in
         let inv_freq_extrap := 1 / pos_freq in
         let inv_freq_interp := 1 / (sf * pos_freq) in
         let ramp := Rmin (Rmax ((IZR j - IZR low) / denom) 0) 1 in
         let inv_freq_mask := (1 - ramp) * extrapolation_factor y in
         nth (Z.to_nat j) f 0
         = inv_freq_interp * (1 - inv_freq_mask)
           + inv_freq_extrap * inv_freq_mask).
Proof.
  split.
  - intros Hev Hd Hbf Hbs Hm Hb Hb1.
    destruct (yarn_correction_range_Ok y self) as (low & high & Hr);
      try assumption.
    eexists. now apply (yarn_inv_freq_Ok y self sf low high).
  - intros f H.
    apply yarn_inv_freq_nth in H as (low & high & Hr & Hnth).
    exists low, high. split; [exact Hr|].
    rewrite <- ramp_denominator. split; [apply ramp_denominator_neq_0|].
    intros j Hj. rewrite Hnth by lia.
    unfold yarn_inv_freq_at, yarn_mask_at, clamp01.
    rewrite INR_IZR_INZ, !Z2Nat.id by lia. reflexivity.
Qed.

Lemma C7_yarn_blend_witness :
  exists f low high,
    YaRNScalingRotaryEmbedding._compute_inv_freq
      (yarn_self 4 1 1 32 1)
      {| head_size := 128; rotary_dim := 128; max_position_embeddings := 2048;
         base := 10000; is_neox_style := true |} 4 = Ok f /\
    YaRNScalingRotaryEmbedding.correction_range
      (yarn_self 4 1 1 32 1)
      {| head_size := 128; rotary_dim := 128; max_position_embeddings := 2048;
         base := 10000; is_neox_style := true |} = Ok (low, high).
Proof.
  destruct (C7_yarn_blend
              (yarn_self 4 1 1 32 1)
              {| head_size := 128; rotary_dim := 128;
                 max_position_embeddings := 2048;
                 base := 10000; is_neox_style := true |} 4)
    as (Htot & Hspec).
  destruct Htot as (f & H); simpl; try reflexivity; try lra; try lia.
  destruct (Hspec f H) as (low & high & Hr & _).
  exists f, low, high. split; [exact H | exact Hr].
Defined.

(** C8: a YaRN object (there is one for every even [rotary_dim >= 0],
    positive [max_position_embeddings], [beta_fast], [beta_slow] and [base],
    [base <> 1] and [scaling_factor >= 0]) holds
    [mscale = attn_factor * (1 if scaling_factor <= 1
                             else 0.1 * ln(scaling_factor) + 1)], set by
    [__init__] before the cache is built; every cosine and every sine of the
    cache is multiplied by it; with [scaling_factor = 1] it is
    [attn_factor]. *)
Theorem C8_yarn_mscale (hs d mp : Z) (b : R) (neox : bool)
    (sf ef af bf bs : R) :
  (Z.even d = true -> (0 <= d)%Z -> (0 < mp)%Z -> 0 <= sf ->
   0 < bf -> 0 < bs -> 0 < b -> b <> 1 ->
   exists obj,
     YaRNScalingRotaryEmbedding.__init__ hs d mp b neox sf ef af bf bs
     = Ok obj) /\
  (forall obj,
     YaRNScalingRotaryEmbedding.__init__ hs d mp b neox sf ef af bf bs
     = Ok obj ->
     let m := mscale (YaRNScalingRotaryEmbedding.yarn obj) in
     let cache :=
       RotaryEmbedding.cos_sin_cache (YaRNScalingRotaryEmbedding.super obj) in
     m = af * (if Rle_dec sf 1 then 1 else 0.1 * ln sf + 1) /\
     (sf = 1 -> m = af) /\
     exists inv_freq,
       YaRNScalingRotaryEmbedding._compute_inv_freq
         (YaRNScalingRotaryEmbedding.yarn obj)
         (RotaryEmbedding.attrs (YaRNScalingRotaryEmbedding.super obj)) sf
       = Ok inv_freq /\
       forall p, (p < length cache)%nat ->
         row_is (nth p cache []) (fun x => x * m) (INR p) inv_freq).
Proof.
  split; [apply yarn_init_Ok|].
  intros obj H m cache. apply yarn_init_Ok_inv in H as [Hy H].
  apply init_Ok_inv in H as [Ha Hc]. fold cache in Hc.
  assert (Hm : m = mscale_factor sf * af) by (unfold m; now rewrite Hy).
  split; [rewrite Hm; unfold mscale_factor; ring|]. split.
  - intros ->. rewrite Hm. unfold mscale_factor.
    destruct (Rle_dec 1 1) as [_|N]; [ring | exfalso; lra].
  - apply yarn_cache_Ok_inv in Hc as (f & Hf & Hpos & Hc).
    exists f. rewrite Hy. split; [exact Hf|].
    intros p Hp. rewrite Hc in *. lengths.
    rewrite nth_table by (now lengths). rewrite nth_upto by assumption.
    replace m with (mscale (yarn_self sf ef af bf bs)) by (now rewrite Hm).
    apply table_row_is.
Qed.

Lemma C8_yarn_mscale_witness :
  exists obj,
    YaRNScalingRotaryEmbedding.__init__ 128 128 2048 10000 true 1 1 (3 / 2)
      32 1 = Ok obj /\
    mscale (YaRNScalingRotaryEmbedding.yarn obj) = 3 / 2.
Proof.
  destruct (C8_yarn_mscale 128 128 2048 10000 true 1 1 (3 / 2) 32 1)
    as (Htot & Hspec).
  destruct Htot as (obj & H); try reflexivity; try lia; try lra.
  exists obj. split; [exact H|].
  destruct (Hspec obj H) as (_ & Hone & _). apply Hone. reflexivity.
Defined.

Lemma Rle_div (a b c : R) : 0 < c -> a * c <= b -> a <= b / c.
Proof.
  intros Hc H. apply Rmult_le_reg_r with c; [assumption|].
  unfold Rdiv. rewrite Rmult_assoc, Rinv_l, Rmult_1_r by lra. assumption.
Qed.

(** A call with positive arguments whose [low] ends above its [high]. *)
Lemma correction_dim_example : 1 <= correction_dim 1 1 2 100.
Proof.
  unfold correction_dim. pose proof PI_RGT_0 as Hpi. pose proof PI_4 as Hpi4.
  pose proof ln_lt_2 as Hl2.
  assert (H4 : ln 4 = 2 * ln 2).
  { replace 4 with (2 * 2) by lra. rewrite ln_mult by lra. lra. }
  assert (Hq : 4 <= 100 / (1 * 2 * PI)) by (apply Rle_div; lra).
  assert (Hln : 2 * ln 2 <= ln (100 / (1 * 2 * PI))).
  { rewrite <- H4. destruct Hq as [Hq|Hq].
    - left. apply ln_increasing; lra.
    - rewrite <- Hq. lra. }
  apply Rle_div; lra.
Qed.

(** C10: for positive arguments, every pair [(low, high)] that
    [_yarn_find_correction_range] returns (it returns one whenever
    [base <> 1]) has [low >= 0] and [high <= dim - 1]; [low <= high] is not
    guaranteed: the call [(1, 1, 1, 2, 100)] returns a pair with
    [high < low]. *)
Theorem C10_yarn_range_bounds :
  (forall (low_rot high_rot : R) (dim : Z) (b : R) (mp : Z),
     0 < low_rot -> 0 < high_rot -> (0 < dim)%Z -> 0 < b -> (0 < mp)%Z ->
     (b <> 1 ->
      exists low high,
        _yarn_find_correction_range low_rot high_rot dim b mp
        = Ok (low, high)) /\
     forall low high,
       _yarn_find_correction_range low_rot high_rot dim b mp = Ok (low, high) ->
       (0 <= low)%Z /\ (high <= dim - 1)%Z) /\
  (exists low high,
     _yarn_find_correction_range 1 1 1 2 100 = Ok (low, high) /\
     (high < low)%Z).
Proof.
  split.
  - intros low_rot high_rot dim b mp Hlo Hhi Hdim Hb Hmp. split.
    + intros Hb1. rewrite find_correction_range_Ok by assumption. eauto.
    + intros low high H.
      apply find_correction_range_Ok_inv in H as [-> ->]. lia.
  - rewrite find_correction_range_Ok by (lra || lia).
    do 2 eexists. split; [reflexivity|].
    pose proof correction_dim_example as Hx.
    destruct (floor_bounds (correction_dim 1 1 2 100)) as [_ Hf].
    assert (0 < Py.floor (correction_dim 1 1 2 100))%Z
      by (apply lt_IZR; lra).
    lia.
Qed.

Lemma C10_yarn_range_bounds_witness :
  exists low high,
    _yarn_find_correction_range 32 1 128 10000 2048 = Ok (low, high) /\
    (0 <= low)%Z /\ (high <= 128 - 1)%Z.
Proof.
  destruct C10_yarn_range_bounds as [Hb _].
  destruct (Hb 32 1 128%Z 10000 2048%Z) as [Htot Hspec]; try lra; try lia.
  destruct Htot as (low & high & H); [lra|].
  exists low, high. split; [exact H|]. exact (Hspec low high H).
Defined.

(** ** Construction with an odd [rotary_dim] *)

Lemma odd_half (d : Z) : Z.odd d = true -> (2 * ((d + 1) / 2) = d + 1)%Z.
Proof.
  intros H. apply Z.odd_spec in H. destruct H as [k ->].
  replace (2 * k + 1 + 1)%Z with ((k + 1) * 2)%Z by lia.
  rewrite Z.div_mul by lia. lia.
Qed.

(** C9, as the code has it: [__init__] checks no parity.  For an odd
    [rotary_dim >= 1] and [max_position_embeddings >= 0] the base variant
    raises nothing and builds a cache of [max_position_embeddings] rows of
    [rotary_dim + 1] entries. *)
Theorem C9_odd_rotary_dim_builds (hs d mp : Z) (b : R) (neox : bool) :
  Z.odd d = true -> (0 <= d)%Z -> (0 <= mp)%Z ->
  exists obj,
    RotaryEmbedding.new hs d mp b neox = Ok obj /\
    Z.of_nat (length (RotaryEmbedding.cos_sin_cache obj)) = mp /\
    forall p, (p < length (RotaryEmbedding.cos_sin_cache obj))%nat ->
      Z.of_nat (length (nth p (RotaryEmbedding.cos_sin_cache obj) []))
      = (d + 1)%Z.
Proof.
  intros Hodd Hd Hm.
  set (self := {| head_size := hs; rotary_dim := d;
                  max_position_embeddings := mp; base := b;
                  is_neox_style := neox |}).
  pose proof (base_cache_Ok self Hd Hm) as Hc.
  eexists. split; [apply (init_Ok _ hs d mp b neox _ Hc)|].
  simpl. lengths. split; [lia|].
  intros p Hp. rewrite nth_table by (now lengths).
  rewrite length_table_row, length_base_inv_freq.
  assert (0 <= (d + 1) / 2)%Z by (apply Z.div_pos; lia).
  pose proof (odd_half d Hodd). lia.
Qed.

Lemma C9_odd_rotary_dim_builds_witness :
  exists obj,
    RotaryEmbedding.new 4 3 1 10000 true = Ok obj /\
    Z.of_nat (length (RotaryEmbedding.cos_sin_cache obj)) = 1%Z.
Proof.
  destruct (C9_odd_rotary_dim_builds 4 3 1 10000 true)
    as (obj & H & Hrows & _); [reflexivity | lia | lia |].
  exists obj. auto.
Defined.

(** C9 as stated fails: [RotaryEmbedding(4, 3, 1, 10000, True)] has an odd
    [rotary_dim] and yet returns an object, whose cache is one row of four
    entries. *)
Lemma C9_odd_rotary_dim_counterexample :
  Z.odd 3 = true /\
  ~ (exists e, RotaryEmbedding.new 4 3 1 10000 true = Raise e) /\
  exists obj,
    RotaryEmbedding.new 4 3 1 10000 true = Ok obj /\
    length (RotaryEmbedding.cos_sin_cache obj) = 1%nat /\
    length (nth 0 (RotaryEmbedding.cos_sin_cache obj) []) = 4%nat.
Proof.
  set (self := {| head_size := 4; rotary_dim := 3;
                  max_position_embeddings := 1; base := 10000;
                  is_neox_style := true |}).
  assert (Hc : RotaryEmbedding._compute_cos_sin_cache self
               = Ok (table keep (upto 1) (base_inv_freq 10000 3))).
  { rewrite base_cache_Ok by (simpl; lia). reflexivity. }
  pose proof (init_Ok _ 4 3 1 10000 true _ Hc) as Hnew.
  fold RotaryEmbedding.new in Hnew.
  split; [reflexivity|]. split.
  - intros [e He]. rewrite Hnew in He. discriminate.
  - eexists. split; [exact Hnew|]. cbn [RotaryEmbedding.cos_sin_cache].
    split; [now lengths|].
    rewrite nth_table by (lengths; lia).
    rewrite length_table_row, length_base_inv_freq. reflexivity.
Qed.

(** ** Shape and layout of the cache, for the four variants *)

Lemma even_double (d : Z) : Z.even d = true -> (2 * (d / 2) = d)%Z.
Proof.
  intros H. apply Z.even_spec in H. destruct H as [k ->].
  replace (2 * k)%Z with (k * 2)%Z at 1 by lia.
  rewrite Z.div_mul by lia. reflexivity.
Qed.

(** The layout of a table whose frequency vector has [d / 2] entries. *)
Lemma table_layout (g : R -> R) (t f : tensor1) (d : Z) (p : nat) :
  Z.even d = true ->
  Z.of_nat (length f) = (d / 2)%Z ->
  (p < length t)%nat ->
  Z.of_nat (length (nth p (table g t f) [])) = d /\
  forall j : Z, (0 <= j < d / 2)%Z ->
    nth (Z.to_nat j) (nth p (table g t f) []) 0
    = g (cos (nth p t 0 * nth (Z.to_nat j) f 0)) /\
    nth (Z.to_nat (d / 2 + j)) (nth p (table g t f) []) 0
    = g (sin (nth p t 0 * nth (Z.to_nat j) f 0)).
Proof.
  intros Hev Hf Hp. rewrite nth_table by assumption.
  pose proof (even_double d Hev) as H2. split.
  - rewrite length_table_row. lia.
  - intros j Hj. split.
    + apply nth_table_row_cos. lia.
    + replace (Z.to_nat (d / 2 + j)) with (length f + Z.to_nat j)%nat by lia.
      apply nth_table_row_sin. lia.
Qed.

(** C2, as the code has it: for each of the four variants and an even
    [rotary_dim], the cache of a constructed object has
    [ceil(effective_max_positions)] rows, which is [effective_max_positions]
    whenever that product is an integer, of [rotary_dim] entries each; in
    row [p] the columns [[0, rotary_dim / 2)] hold the cosines and the
    columns [[rotary_dim / 2, rotary_dim)] the sines of the same angles
    [t[p] * inv_freq[j]] (times [mscale] for YaRN). *)
Theorem C2_cache_shape_layout (v : variant) (hs d mp : Z) (b : R)
    (neox : bool) (obj : RotaryEmbedding.t) :
  Z.even d = true ->
  construct v hs d mp b neox = Ok obj ->
  let cache := RotaryEmbedding.cos_sin_cache obj in
  Z.of_nat (length cache) = Py.ceil (effective_max_positions v mp) /\
  (forall n : Z,
     effective_max_positions v mp = IZR n -> Z.of_nat (length cache) = n) /\
  exists inv_freq,
    inv_freq_of v (RotaryEmbedding.attrs obj) = Ok inv_freq /\
    forall p, (p < length cache)%nat ->
      Z.of_nat (length (nth p cache [])) = d /\
      forall j : Z, (0 <= j < d / 2)%Z ->
        nth (Z.to_nat j) (nth p cache []) 0
        = stored v (cos (position v p * nth (Z.to_nat j) inv_freq 0)) /\
        nth (Z.to_nat (d / 2 + j)) (nth p cache []) 0
        = stored v (sin (position v p * nth (Z.to_nat j) inv_freq 0)).
Proof.
  intros Hev H cache.
  assert (Hrows : Z.of_nat (length cache)
                  = Py.ceil (effective_max_positions v mp) ->
          forall n : Z, effective_max_positions v mp = IZR n ->
                        Z.of_nat (length cache) = n).
  { intros Hr n Hn. rewrite Hr, Hn. apply ceil_IZR. }
  assert (Hlen : forall b', (0 <= d)%Z ->
            Z.of_nat (length (base_inv_freq b' d)) = (d / 2)%Z).
  { intros b' Hd. rewrite length_base_inv_freq, (even_half _ Hev).
    assert (0 <= d / 2)%Z by (apply Z.div_pos; lia). lia. }
  destruct v as [|sf|sf|sf ef af bf bs]; simpl in H.
  - (* base *)
    apply init_Ok_inv in H as [Ha Hc]. fold cache in Hc.
    apply base_cache_Ok_inv in Hc as (Hd & Hm & Hc).
    rewrite Ha in *. simpl in Hd, Hm, Hc |- *.
    assert (Hr : Z.of_nat (length cache) = Py.ceil (IZR mp)).
    { rewrite Hc, ceil_IZR. lengths. lia. }
    split; [exact Hr|]. split; [exact (Hrows Hr)|].
    exists (base_inv_freq b d).
    split; [apply compute_inv_freq_Ok; assumption|].
    intros p Hp. rewrite Hc in *. lengths.
    rewrite <- (nth_upto (Z.to_nat mp) p) by assumption.
    apply table_layout; auto. now lengths.
  - (* linear scaling *)
    bind_inv H as o Ho. injection H as <-.
    apply linear_init_Ok_inv in Ho as [_ H].
    apply init_Ok_inv in H as [Ha Hc].
    fold (LinearScalingRotaryEmbedding.super o) in cache. fold cache in Hc.
    apply linear_cache_Ok_inv in Hc as (Hd & Hm & Hc).
    rewrite Ha in *. simpl in Hd, Hm, Hc |- *.
    assert (Hr : Z.of_nat (length cache) = Py.ceil (IZR mp * sf)).
    { rewrite Hc. lengths. pose proof (ceil_nonneg _ Hm). lia. }
    split; [exact Hr|]. split; [exact (Hrows Hr)|].
    exists (base_inv_freq b d).
    split; [apply compute_inv_freq_Ok; assumption|].
    intros p Hp. rewrite Hc in *. lengths.
    rewrite <- (nth_div_scalar_upto _ p sf Hp).
    apply table_layout; auto. now lengths.
  - (* dynamic NTK scaling *)
    bind_inv H as o Ho. injection H as <-.
    apply ntk_init_Ok_inv in Ho as [_ H].
    apply init_Ok_inv in H as [Ha Hc].
    fold (DynamicNTKScalingRotaryEmbedding.super o) in cache.
    fold cache in Hc.
    apply ntk_cache_Ok_inv in Hc as (b' & Hb & Hd & Hm & Hc).
    rewrite Ha in *. simpl in Hd, Hm, Hc |- *.
    assert (Hr : Z.of_nat (length cache) = Py.ceil (IZR mp * sf)).
    { rewrite Hc. lengths. pose proof (ceil_nonneg _ Hm). lia. }
    split; [exact Hr|]. split; [exact (Hrows Hr)|].
    exists (base_inv_freq b' d). split.
    { rewrite Hb. simpl. apply compute_inv_freq_Ok; assumption. }
    intros p Hp. rewrite Hc in *. lengths.
    rewrite <- (nth_upto _ p Hp).
    apply table_layout; auto. now lengths.
  - (* YaRN scaling *)
    bind_inv H as o Ho. injection H as <-.
    apply yarn_init_Ok_inv in Ho as [_ H].
    apply init_Ok_inv in H as [Ha Hc].
    fold (YaRNScalingRotaryEmbedding.super o) in cache. fold cache in Hc.
    apply yarn_cache_Ok_inv in Hc as (f & Hf & Hm & Hc).
    rewrite Ha in *. simpl in Hf, Hm, Hc |- *.
    pose proof Hf as Hf'.
    apply yarn_inv_freq_Ok_inv in Hf' as (low & high & _ & Hd & Hfv);
      [|assumption].
    simpl in Hd, Hfv.
    assert (Hr : Z.of_nat (length cache) = Py.ceil (IZR mp * sf)).
    { rewrite Hc. lengths. pose proof (ceil_nonneg _ Hm). lia. }
    split; [exact Hr|]. split; [exact (Hrows Hr)|].
    exists f. split; [exact Hf|].
    intros p Hp. rewrite Hc in *. lengths.
    rewrite <- (nth_upto _ p Hp).
    apply table_layout; auto; [|now lengths].
    rewrite Hfv, length_yarn_inv_freq.
    assert (0 <= d / 2)%Z by (apply Z.div_pos; lia). lia.
Qed.

Lemma C2_cache_shape_layout_witness :
  exists obj,
    construct (Linear 2) 4 4 8 10000 true = Ok obj /\
    Z.of_nat (length (RotaryEmbedding.cos_sin_cache obj)) = 16%Z.
Proof.
  assert (H : exists o,
             LinearScalingRotaryEmbedding.__init__ 4 4 8 10000 true 2 = Ok o).
  { unfold LinearScalingRotaryEmbedding.__init__.
    erewrite init_Ok; [simpl; eexists; reflexivity|].
    apply linear_cache_Ok; simpl; [lia | lra]. }
  destruct H as [o Ho]. exists (LinearScalingRotaryEmbedding.super o).
  assert (Hc : construct (Linear 2) 4 4 8 10000 true
               = Ok (LinearScalingRotaryEmbedding.super o))
    by (simpl; rewrite Ho; reflexivity).
  split; [exact Hc|].
  destruct (C2_cache_shape_layout (Linear 2) 4 4 8 10000 true _
              ltac:(reflexivity) Hc) as (_ & Hint & _).
  apply (Hint 16%Z). simpl. lra.
Defined.

(** C2 as stated fails: [LinearScalingRotaryEmbedding(4, 4, 3, 10000, True,
    2.5)] has an even [rotary_dim] and [max_position_embeddings
    * scaling_factor = 7.5], and its cache has 8 rows. *)
Lemma C2_cache_shape_counterexample :
  exists obj,
    Z.even 4 = true /\
    construct (Linear (5 / 2)) 4 4 3 10000 true = Ok obj /\
    length (RotaryEmbedding.cos_sin_cache obj) = 8%nat /\
    INR (length (RotaryEmbedding.cos_sin_cache obj))
    <> effective_max_positions (Linear (5 / 2)) 3.
Proof.
  set (self := {| head_size := 4; rotary_dim := 4;
                  max_position_embeddings := 3; base := 10000;
                  is_neox_style := true |}).
  assert (Hceil : Py.ceil (3 * (5 / 2)) = 8%Z) by (apply ceil_unique; lra).
  assert (Hc : LinearScalingRotaryEmbedding._compute_cos_sin_cache (5 / 2) self
               = Ok (table keep (div_scalar (upto 8) (5 / 2))
                       (base_inv_freq 10000 4))).
  { rewrite linear_cache_Ok by (simpl; lia || lra). simpl.
    now rewrite Hceil. }
  eexists. split; [reflexivity|]. split.
  - simpl. unfold LinearScalingRotaryEmbedding.__init__.
    rewrite (init_Ok _ 4 4 3 10000 true _ Hc). reflexivity.
  - cbn [LinearScalingRotaryEmbedding.super RotaryEmbedding.cos_sin_cache].
    lengths. split; [reflexivity|]. simpl. lra.
Qed.

(** * Further properties of the caches *)

(** What a constructed object of any of the four classes holds: its
    attributes, and a cache that is the table of its positions and inverse
    frequencies. *)
Lemma construct_Ok_inv (v : variant) (hs d mp : Z) (b : R) (neox : bool)
    (obj : RotaryEmbedding.t) :
  construct v hs d mp b neox = Ok obj ->
  RotaryEmbedding.attrs obj
  = {| head_size := hs; rotary_dim := d; max_position_embeddings := mp;
       base := b; is_neox_style := neox |} /\
  (0 <= d)%Z /\ 0 <= effective_max_positions v mp /\
  exists f,
    inv_freq_of v (RotaryEmbedding.attrs obj) = Ok f /\
    RotaryEmbedding.cos_sin_cache obj
    = table (stored v)
        (map (position v)
             (seq 0 (Z.to_nat (Py.ceil (effective_max_positions v mp)))))
        f.
Proof.
  intros H. destruct v as [|sf|sf|sf ef af bf bs]; simpl in H.
  - apply init_Ok_inv in H as [Ha Hc].
    apply base_cache_Ok_inv in Hc as (Hd & Hm & Hc).
    rewrite Ha in *. simpl in Hd, Hm, Hc |- *.
    repeat split; [assumption | now apply (IZR_le 0) |].
    exists (base_inv_freq b d).
    split; [now apply compute_inv_freq_Ok|].
    rewrite Hc, ceil_IZR. reflexivity.
  - bind_inv H as o Ho. injection H as <-.
    apply linear_init_Ok_inv in Ho as [_ H].
    apply init_Ok_inv in H as [Ha Hc].
    apply linear_cache_Ok_inv in Hc as (Hd & Hm & Hc).
    rewrite Ha in *. simpl in Hd, Hm, Hc |- *.
    repeat split; [assumption .. |].
    exists (base_inv_freq b d).
    split; [now apply compute_inv_freq_Ok|].
    rewrite Hc. unfold div_scalar, upto. rewrite map_map. reflexivity.
  - bind_inv H as o Ho. injection H as <-.
    apply ntk_init_Ok_inv in Ho as [_ H].
    apply init_Ok_inv in H as [Ha Hc].
    apply ntk_cache_Ok_inv in Hc as (b' & Hb & Hd & Hm & Hc).
    rewrite Ha in *. simpl in Hd, Hm, Hc |- *.
    repeat split; [assumption .. |].
    exists (base_inv_freq b' d). split.
    { rewrite Hb. simpl. now apply compute_inv_freq_Ok. }
    rewrite Hc. reflexivity.
  - bind_inv H as o Ho. injection H as <-.
    apply yarn_init_Ok_inv in Ho as [_ H].
    apply init_Ok_inv in H as [Ha Hc].
    apply yarn_cache_Ok_inv in Hc as (f & Hf & Hm & Hc).
    rewrite Ha in *. simpl in Hf, Hm, Hc |- *.
    pose proof Hf as Hf'.
    unfold YaRNScalingRotaryEmbedding._compute_inv_freq in Hf'.
    bind_inv Hf' as r Hr. apply arange3_evens_Ok_inv in Hr as [Hd _].
    simpl in Hd.
    repeat split; [assumption .. |].
    exists f. split; [exact Hf|]. rewrite Hc. reflexivity.
Qed.

Lemma nth_positions (v : variant) (n p : nat) :
  (p < n)%nat -> nth p (map (position v) (seq 0 n)) 0 = position v p.
Proof. apply nth_map_seq. Qed.

Lemma position_zero (v : variant) : position v 0 = 0.
Proof. destruct v; simpl; lra. Qed.

Lemma inv_freq_of_length (v : variant) (self : rope_attrs) (f : tensor1) :
  Z.even (rotary_dim self) = true ->
  inv_freq_of v self = Ok f ->
  Z.of_nat (length f) = (rotary_dim self / 2)%Z.
Proof.
  intros Hev H.
  assert (Hbase : forall b', (0 <= rotary_dim self)%Z ->
            Z.of_nat (length (base_inv_freq b' (rotary_dim self)))
            = (rotary_dim self / 2)%Z).
  { intros b' Hd. rewrite length_base_inv_freq, (even_half _ Hev).
    assert (0 <= rotary_dim self / 2)%Z by (apply Z.div_pos; lia). lia. }
  destruct v as [|sf|sf|sf ef af bf bs]; simpl in H.
  - apply compute_inv_freq_Ok_inv in H as [Hd ->]. now apply Hbase.
  - apply compute_inv_freq_Ok_inv in H as [Hd ->]. now apply Hbase.
  - bind_inv H as b' Hb.
    apply compute_inv_freq_Ok_inv in H as [Hd ->]. now apply Hbase.
  - apply yarn_inv_freq_Ok_inv in H as (low & high & _ & Hd & ->);
      [|assumption].
    rewrite length_yarn_inv_freq.
    assert (0 <= rotary_dim self / 2)%Z by (apply Z.div_pos; lia). lia.
Qed.

(** The entries of the rows of a constructed cache, for an even
    [rotary_dim]. *)
Lemma construct_rows (v : variant) (hs d mp : Z) (b : R) (neox : bool)
    (obj : RotaryEmbedding.t) :
  Z.even d = true ->
  construct v hs d mp b neox = Ok obj ->
  exists f,
    inv_freq_of v (RotaryEmbedding.attrs obj) = Ok f /\
    Z.of_nat (length f) = (d / 2)%Z /\
    forall p, (p < length (RotaryEmbedding.cos_sin_cache obj))%nat ->
      forall j : Z, (0 <= j < d / 2)%Z ->
        let row := nth p (RotaryEmbedding.cos_sin_cache obj) [] in
        nth (Z.to_nat j) row 0
        = stored v (cos (position v p * nth (Z.to_nat j) f 0)) /\
        nth (Z.to_nat (d / 2 + j)) row 0
        = stored v (sin (position v p * nth (Z.to_nat j) f 0)).
Proof.
  intros Hev H.
  apply construct_Ok_inv in H as (Ha & Hd & Hm & f & Hf & Hc).
  exists f. split; [exact Hf|].
  assert (Hlen : Z.of_nat (length f) = (d / 2)%Z).
  { rewrite Ha in Hf.
    exact (inv_freq_of_length v
             {| head_size := hs; rotary_dim := d;
                max_position_embeddings := mp; base := b;
                is_neox_style := neox |} f Hev Hf). }
  split; [exact Hlen|].
  intros p Hp j Hj row. unfold row. rewrite Hc in *.
  rewrite length_table, length_map, length_seq in Hp.
  rewrite <- (nth_positions v _ p Hp).
  apply table_layout; auto. now rewrite length_map, length_seq.
Qed.

(** X1: Every pair of a cosine column and its sine column of a cache row lies on
    the circle of radius [1] ([mscale] for YaRN): the rotation the cache
    encodes keeps the norm. *)
Theorem X1_cache_rows_on_circle (v : variant) (hs d mp : Z) (b : R)
    (neox : bool) (obj : RotaryEmbedding.t) :
  Z.even d = true ->
  construct v hs d mp b neox = Ok obj ->
  forall p, (p < length (RotaryEmbedding.cos_sin_cache obj))%nat ->
    forall j : Z, (0 <= j < d / 2)%Z ->
      let row := nth p (RotaryEmbedding.cos_sin_cache obj) [] in
      (nth (Z.to_nat j) row 0) ^ 2 + (nth (Z.to_nat (d / 2 + j)) row 0) ^ 2
      = (stored v 1) ^ 2.
Proof.
  intros Hev H p Hp j Hj row.
  destruct (construct_rows v hs d mp b neox obj Hev H) as (f & _ & _ & Hrows).
  destruct (Hrows p Hp j Hj) as [Ec Es]. unfold row. rewrite Ec, Es.
  set (x := position v p * nth (Z.to_nat j) f 0).
  pose proof (sin2_cos2 x) as Hsc. unfold Rsqr in Hsc.
  destruct v; simpl; nra.
Qed.

Lemma base_new_Ok (hs d mp : Z) (b : R) (neox : bool) :
  (0 <= d)%Z -> (0 <= mp)%Z ->
  exists obj, RotaryEmbedding.new hs d mp b neox = Ok obj.
Proof.
  intros Hd Hm. unfold RotaryEmbedding.new.
  erewrite init_Ok; [eexists; reflexivity|].
  apply base_cache_Ok; assumption.
Qed.

(** A concrete YaRN object, for the witnesses. *)
Lemma yarn_example_object :
  exists o,
    YaRNScalingRotaryEmbedding.__init__ 128 128 2048 10000 true 4 1 1 32 1
    = Ok o.
Proof. apply yarn_init_Ok; try reflexivity; try lia; try lra. Qed.

Lemma construct_yarn_example :
  exists obj, construct (YaRN 4 1 1 32 1) 128 128 2048 10000 true = Ok obj.
Proof.
  destruct yarn_example_object as [o Ho]. simpl. rewrite Ho. simpl. eauto.
Qed.

Lemma X1_cache_rows_on_circle_witness :
  exists obj,
    construct (YaRN 4 1 1 32 1) 128 128 2048 10000 true = Ok obj /\
    forall p, (p < length (RotaryEmbedding.cos_sin_cache obj))%nat ->
      (nth 3 (nth p (RotaryEmbedding.cos_sin_cache obj) []) 0) ^ 2
      + (nth 67 (nth p (RotaryEmbedding.cos_sin_cache obj) []) 0) ^ 2
      = (stored (YaRN 4 1 1 32 1) 1) ^ 2.
Proof.
  destruct construct_yarn_example as [obj H]. exists obj.
  split; [exact H|]. intros p Hp.
  apply (X1_cache_rows_on_circle (YaRN 4 1 1 32 1) 128 128 2048 10000 true obj
           ltac:(reflexivity) H p Hp 3%Z).
  split; [lia | reflexivity].
Defined.

(** X2: Row 0 of every cache is the identity rotation: the cosine columns hold
    [1] ([mscale] for YaRN) and the sine columns hold [0]. *)
Theorem X2_cache_row_zero (v : variant) (hs d mp : Z) (b : R)
    (neox : bool) (obj : RotaryEmbedding.t) :
  Z.even d = true ->
  construct v hs d mp b neox = Ok obj ->
  (0 < length (RotaryEmbedding.cos_sin_cache obj))%nat ->
  forall j : Z, (0 <= j < d / 2)%Z ->
    let row := nth 0 (RotaryEmbedding.cos_sin_cache obj) [] in
    nth (Z.to_nat j) row 0 = stored v 1 /\
    nth (Z.to_nat (d / 2 + j)) row 0 = 0.
Proof.
  intros Hev H Hp j Hj row.
  destruct (construct_rows v hs d mp b neox obj Hev H) as (f & _ & _ & Hrows).
  destruct (Hrows 0%nat Hp j Hj) as [Ec Es]. unfold row. rewrite Ec, Es.
  rewrite position_zero, Rmult_0_l, cos_0, sin_0.
  split; [reflexivity|]. destruct v; simpl; ring.
Qed.

Lemma X2_cache_row_zero_witness :
  exists obj,
    RotaryEmbedding.new 4 4 1 10000 true = Ok obj /\
    nth 1 (nth 0 (RotaryEmbedding.cos_sin_cache obj) []) 0 = 1 /\
    nth 3 (nth 0 (RotaryEmbedding.cos_sin_cache obj) []) 0 = 0.
Proof.
  destruct (base_new_Ok 4 4 1 10000 true) as [obj H]; [lia | lia |].
  exists obj. split; [exact H|].
  assert (Hlen : (0 < length (RotaryEmbedding.cos_sin_cache obj))%nat).
  { apply (construct_Ok_inv Base) in H as (_ & _ & _ & f & _ & ->).
    rewrite length_table, length_map, length_seq. simpl.
    rewrite ceil_IZR. lia. }
  apply (X2_cache_row_zero Base 4 4 1 10000 true obj ltac:(reflexivity) H Hlen
           1%Z).
  split; [lia | reflexivity].
Defined.

(** ** The inverse frequencies *)

(** X3: For a base above 1 the inverse frequencies start at 1 and decrease
    strictly along the channels, all of them positive. *)
Theorem X3_inv_freq_decreasing (self : rope_attrs) (b : R) (f : tensor1) :
  1 < b -> (0 < rotary_dim self)%Z ->
  RotaryEmbedding._compute_inv_freq self b = Ok f ->
  nth 0 f 0 = 1 /\
  (forall i, (i < length f)%nat -> 0 < nth i f 0 <= 1) /\
  (forall i j, (i < j < length f)%nat -> nth j f 0 < nth i f 0).
Proof.
  intros Hb Hd H. apply compute_inv_freq_Ok_inv in H as [_ ->].
  rewrite length_base_inv_freq.
  assert (Hn : (0 < Z.to_nat ((rotary_dim self + 1) / 2))%nat).
  { assert (1 <= (rotary_dim self + 1) / 2)%Z
      by (apply Z.div_le_lower_bound; lia).
    lia. }
  assert (Hd' : 0 < IZR (rotary_dim self)) by now apply (IZR_lt 0).
  assert (Hexp : forall i : nat,
            0 <= IZR (2 * Z.of_nat i) / IZR (rotary_dim self)).
  { intros i. apply Rle_div; [assumption|]. rewrite Rmult_0_l.
    apply (IZR_le 0). lia. }
  assert (Hpow : forall i : nat,
            1 <= Rpower b (IZR (2 * Z.of_nat i) / IZR (rotary_dim self))).
  { intros i. rewrite <- (Rpower_O b) by lra.
    destruct (Hexp i) as [Hlt | <-]; [|lra].
    left. apply Rpower_lt; assumption. }
  split; [|split].
  - rewrite nth_base_inv_freq by assumption. simpl.
    unfold Rdiv at 2. rewrite Rmult_0_l, Rpower_O by lra. lra.
  - intros i Hi. rewrite nth_base_inv_freq by assumption.
    specialize (Hpow i). split.
    + apply Rdiv_lt_0_compat; lra.
    + apply Rmult_le_reg_r
        with (Rpower b (IZR (2 * Z.of_nat i) / IZR (rotary_dim self)));
        [lra|].
      unfold Rdiv. rewrite Rmult_assoc, Rinv_l by lra. lra.
  - intros i j [Hij Hj]. rewrite !nth_base_inv_freq by lia.
    pose proof (Hpow i) as Hi1.
    assert (Hlt : Rpower b (IZR (2 * Z.of_nat i) / IZR (rotary_dim self))
                  < Rpower b (IZR (2 * Z.of_nat j) / IZR (rotary_dim self))).
    { apply Rpower_lt; [assumption|].
      unfold Rdiv. apply Rmult_lt_compat_r; [now apply Rinv_0_lt_compat|].
      apply IZR_lt. lia. }
    unfold Rdiv at 1 3. rewrite !Rmult_1_l.
    apply Rinv_lt_contravar; [|assumption].
    apply Rmult_lt_0_compat; lra.
Qed.

Lemma X3_inv_freq_decreasing_witness :
  exists f,
    RotaryEmbedding._compute_inv_freq
      {| head_size := 4; rotary_dim := 4; max_position_embeddings := 1;
         base := 10000; is_neox_style := true |} 10000 = Ok f /\
    nth 0 f 0 = 1.
Proof.
  eexists. split.
  - apply compute_inv_freq_Ok. simpl. lia.
  - apply (X3_inv_freq_decreasing
             {| head_size := 4; rotary_dim := 4; max_position_embeddings := 1;
                base := 10000; is_neox_style := true |} 10000).
    + lra.
    + simpl. lia.
    + apply compute_inv_freq_Ok. simpl. lia.
Defined.

(** ** Linear scaling, any factor *)

(** X4: Stretch consistency: whenever position [p] of the linearly scaled cache
    is [scaling_factor] times position [q] of the base cache, the two rows
    are equal. *)
Theorem X4_linear_stretch (sf : R) (self : rope_attrs)
    (cache_s cache_1 : tensor2) (p q : nat) :
  sf <> 0 ->
  LinearScalingRotaryEmbedding._compute_cos_sin_cache sf self = Ok cache_s ->
  RotaryEmbedding._compute_cos_sin_cache self = Ok cache_1 ->
  (p < length cache_s)%nat -> (q < length cache_1)%nat ->
  INR p = INR q * sf ->
  nth p cache_s [] = nth q cache_1 [].
Proof.
  intros Hsf Hs H1 Hp Hq E.
  apply linear_cache_Ok_inv in Hs as (_ & _ & ->).
  apply base_cache_Ok_inv in H1 as (_ & _ & ->).
  lengths. rewrite !nth_table by (now lengths).
  rewrite nth_div_scalar_upto, nth_upto by assumption.
  f_equal. rewrite E. field. assumption.
Qed.

Lemma X4_linear_stretch_witness :
  exists cache_s cache_1,
    LinearScalingRotaryEmbedding._compute_cos_sin_cache 3
      {| head_size := 4; rotary_dim := 4; max_position_embeddings := 8;
         base := 10000; is_neox_style := true |} = Ok cache_s /\
    RotaryEmbedding._compute_cos_sin_cache
      {| head_size := 4; rotary_dim := 4; max_position_embeddings := 8;
         base := 10000; is_neox_style := true |} = Ok cache_1 /\
    nth 6 cache_s [] = nth 2 cache_1 [].
Proof.
  set (self := {| head_size := 4; rotary_dim := 4;
                  max_position_embeddings := 8;
                  base := 10000; is_neox_style := true |}).
  assert (Hs : LinearScalingRotaryEmbedding._compute_cos_sin_cache 3 self
               = Ok (table keep (div_scalar (upto 24) 3)
                       (base_inv_freq 10000 4))).
  { rewrite linear_cache_Ok by (simpl; lia || lra). simpl.
    replace (8 * 3) with (IZR 24) by lra. now rewrite ceil_IZR. }
  assert (H1 : RotaryEmbedding._compute_cos_sin_cache self
               = Ok (table keep (upto 8) (base_inv_freq 10000 4))).
  { rewrite base_cache_Ok by (simpl; lia). reflexivity. }
  do 2 eexists. split; [exact Hs|]. split; [exact H1|].
  apply (X4_linear_stretch 3 self _ _ 6 2 ltac:(lra) Hs H1).
  - lengths. lia.
  - lengths. lia.
  - simpl. lra.
Defined.

(** ** Dynamic NTK scaling: the modified base *)

Lemma ntk_radicand (sf : R) (mp : Z) :
  mp <> 0%Z -> sf * (IZR mp * sf) / IZR mp - (sf - 1) = sf * sf - sf + 1.
Proof.
  intros Hm. assert (IZR mp <> 0) by (intros E; apply eq_IZR in E; lia).
  field. assumption.
Qed.

Lemma ntk_base_facts (sf : R) (self : rope_attrs) (b' : R) :
  DynamicNTKScalingRotaryEmbedding.ntk_base sf self = Ok b' ->
  b' = base self
       * Rpower (sf * sf - sf + 1)
                (IZR (rotary_dim self) / IZR (rotary_dim self - 2)) /\
  (1 <= sf -> (2 < rotary_dim self)%Z -> 0 <= base self -> base self <= b').
Proof.
  intros H. apply ntk_base_Ok_inv in H as (Hm & Hd & ->).
  unfold ntk_base_value. rewrite ntk_radicand by assumption.
  split; [reflexivity|]. intros Hsf Hd2 Hb.
  assert (Hx : 1 <= sf * sf - sf + 1) by nra.
  assert (He : 0 <= IZR (rotary_dim self) / IZR (rotary_dim self - 2)).
  { apply Rle_div; [apply (IZR_lt 0); lia|]. rewrite Rmult_0_l.
    apply (IZR_le 0). lia. }
  assert (Hp : 1 <= Rpower (sf * sf - sf + 1)
                      (IZR (rotary_dim self) / IZR (rotary_dim self - 2))).
  { rewrite <- (Rpower_O (sf * sf - sf + 1)) at 1 by lra.
    apply Rle_Rpower; assumption. }
  nra.
Qed.

(** X5: The modified base does not depend on [max_position_embeddings]: it is
    [base * (s^2 - s + 1) ^ (rotary_dim / (rotary_dim - 2))] for the scaling
    factor [s]; for [s >= 1], [rotary_dim > 2] and [base >= 0] it is not
    below [base]. *)
Theorem X5_ntk_base_closed_form (sf : R) (self : rope_attrs) (b' : R) :
  DynamicNTKScalingRotaryEmbedding.ntk_base sf self = Ok b' ->
  b' = base self
       * Rpower (sf * sf - sf + 1)
                (IZR (rotary_dim self) / IZR (rotary_dim self - 2)) /\
  (1 <= sf -> (2 < rotary_dim self)%Z -> 0 <= base self -> base self <= b').
Proof. apply ntk_base_facts. Qed.

Lemma X5_ntk_base_closed_form_witness :
  exists b',
    DynamicNTKScalingRotaryEmbedding.ntk_base 2
      {| head_size := 4; rotary_dim := 4; max_position_embeddings := 8;
         base := 10000; is_neox_style := true |} = Ok b' /\
    b' = 10000 * Rpower (2 * 2 - 2 + 1) (4 / IZR (4 - 2)).
Proof.
  eexists. split.
  - apply ntk_base_Ok; simpl; lia.
  - apply (X5_ntk_base_closed_form 2
             {| head_size := 4; rotary_dim := 4; max_position_embeddings := 8;
                base := 10000; is_neox_style := true |}).
    apply ntk_base_Ok; simpl; lia.
Defined.

(** X6: With a factor [>= 1], [rotary_dim > 2] and a positive base, dynamic NTK
    scaling raises no frequency: every inverse frequency stays positive and
    is at most the one of the base variant, and channel 0 keeps the
    frequency 1. *)
Theorem X6_ntk_lowers_frequencies (sf : R) (self : rope_attrs)
    (f_ntk f_base : tensor1) :
  1 <= sf -> (2 < rotary_dim self)%Z -> 0 < base self ->
  inv_freq_of (DynamicNTK sf) self = Ok f_ntk ->
  inv_freq_of Base self = Ok f_base ->
  length f_ntk = length f_base /\
  nth 0 f_ntk 0 = 1 /\
  forall i, (i < length f_base)%nat ->
    0 < nth i f_ntk 0 <= nth i f_base 0.
Proof.
  intros Hsf Hd Hb Hn Hbase. simpl in Hn, Hbase.
  bind_inv Hn as b' Hb'.
  destruct (ntk_base_facts sf self b' Hb') as [_ Hge].
  specialize (Hge Hsf Hd (Rlt_le _ _ Hb)).
  apply compute_inv_freq_Ok_inv in Hn as [_ ->].
  apply compute_inv_freq_Ok_inv in Hbase as [_ ->].
  rewrite !length_base_inv_freq. split; [reflexivity|].
  assert (Hd' : 0 < IZR (rotary_dim self)) by (apply (IZR_lt 0); lia).
  assert (Hn : (0 < Z.to_nat ((rotary_dim self + 1) / 2))%nat).
  { assert (1 <= (rotary_dim self + 1) / 2)%Z
      by (apply Z.div_le_lower_bound; lia).
    lia. }
  split.
  - rewrite nth_base_inv_freq by assumption. simpl.
    unfold Rdiv at 2. rewrite Rmult_0_l, Rpower_O by lra. lra.
  - intros i Hi. rewrite !nth_base_inv_freq by assumption.
    set (x := IZR (2 * Z.of_nat i) / IZR (rotary_dim self)).
    assert (Hx : 0 <= x).
    { apply Rle_div; [assumption|]. rewrite Rmult_0_l.
      apply (IZR_le 0). lia. }
    assert (H1 : 0 < Rpower (base self) x) by apply exp_pos.
    assert (H2 : Rpower (base self) x <= Rpower b' x)
      by (apply Rle_Rpower_l; [assumption | lra]).
    split.
    + apply Rdiv_lt_0_compat; lra.
    + unfold Rdiv. rewrite !Rmult_1_l.
      apply Rinv_le_contravar; assumption.
Qed.

Lemma X6_ntk_lowers_frequencies_witness :
  exists f_ntk f_base,
    inv_freq_of (DynamicNTK 2)
      {| head_size := 4; rotary_dim := 4; max_position_embeddings := 8;
         base := 10000; is_neox_style := true |} = Ok f_ntk /\
    inv_freq_of Base
      {| head_size := 4; rotary_dim := 4; max_position_embeddings := 8;
         base := 10000; is_neox_style := true |} = Ok f_base /\
    nth 0 f_ntk 0 = 1.
Proof.
  set (self := {| head_size := 4; rotary_dim := 4;
                  max_position_embeddings := 8;
                  base := 10000; is_neox_style := true |}).
  assert (Hn : inv_freq_of (DynamicNTK 2) self
               = Ok (base_inv_freq (ntk_base_value 10000 2 8 4) 4)).
  { simpl. rewrite ntk_base_Ok by (simpl; lia). simpl.
    apply compute_inv_freq_Ok. simpl. lia. }
  assert (Hb : inv_freq_of Base self = Ok (base_inv_freq 10000 4)).
  { simpl. apply compute_inv_freq_Ok. simpl. lia. }
  do 2 eexists. split; [exact Hn|]. split; [exact Hb|].
  apply (X6_ntk_lowers_frequencies 2 self _ _ ltac:(lra) ltac:(simpl; lia)
           ltac:(simpl; lra) Hn Hb).
Defined.

(** ** What makes a construction fail *)

Lemma init_Raise (compute : rope_attrs -> result tensor2)
    (hs d mp : Z) (b : R) (neox : bool) (e : exn) :
  compute {| head_size := hs; rotary_dim := d;
             max_position_embeddings := mp; base := b;
             is_neox_style := neox |} = Raise e ->
  RotaryEmbedding.__init__ compute hs d mp b neox = Raise e.
Proof. intros H. unfold RotaryEmbedding.__init__. now rewrite H. Qed.

Lemma compute_inv_freq_Raise (self : rope_attrs) (b : R) :
  (rotary_dim self < 0)%Z ->
  RotaryEmbedding._compute_inv_freq self b = Raise RuntimeError.
Proof.
  intros H. unfold RotaryEmbedding._compute_inv_freq.
  now rewrite arange3_evens_neg.
Qed.

Lemma linear_construct_Ok (sf : R) (hs d mp : Z) (b : R) (neox : bool) :
  (0 <= d)%Z -> 0 <= IZR mp * sf ->
  exists obj, construct (Linear sf) hs d mp b neox = Ok obj.
Proof.
  intros Hd Hm. simpl. unfold LinearScalingRotaryEmbedding.__init__.
  erewrite init_Ok; [simpl; eexists; reflexivity|].
  apply linear_cache_Ok; assumption.
Qed.

(** X7: The base and the linear-scaling class check nothing themselves: a
    construction fails exactly when [torch.arange] does, with a
    [RuntimeError], that is for a negative [rotary_dim] or a negative
    [max_position_embeddings] (times [scaling_factor]). *)
Theorem X7_base_linear_errors (v : variant) (hs d mp : Z) (b : R)
    (neox : bool) :
  v = Base \/ (exists sf, v = Linear sf) ->
  ((d < 0)%Z \/ effective_max_positions v mp < 0 ->
   construct v hs d mp b neox = Raise RuntimeError) /\
  ((0 <= d)%Z -> 0 <= effective_max_positions v mp ->
   exists obj, construct v hs d mp b neox = Ok obj).
Proof.
  set (self := {| head_size := hs; rotary_dim := d;
                  max_position_embeddings := mp; base := b;
                  is_neox_style := neox |}).
  intros [-> | [sf ->]]; simpl.
  - split.
    + intros Hneg. apply init_Raise. fold self.
      unfold RotaryEmbedding._compute_cos_sin_cache.
      destruct (Z_lt_le_dec d 0) as [Hd|Hd].
      * now rewrite compute_inv_freq_Raise.
      * rewrite compute_inv_freq_Ok by assumption. simpl.
        rewrite arange_neg by (destruct Hneg; [lia | assumption]).
        reflexivity.
    + intros Hd Hm. apply base_new_Ok; [assumption | now apply le_IZR].
  - split.
    + intros Hneg.
      unfold LinearScalingRotaryEmbedding.__init__.
      rewrite (init_Raise _ hs d mp b neox RuntimeError); [reflexivity|].
      fold self. unfold LinearScalingRotaryEmbedding._compute_cos_sin_cache.
      destruct (Z_lt_le_dec d 0) as [Hd|Hd].
      * now rewrite compute_inv_freq_Raise.
      * rewrite compute_inv_freq_Ok by assumption. simpl.
        rewrite arange_neg by (destruct Hneg; [lia | assumption]).
        reflexivity.
    + intros Hd Hm. unfold LinearScalingRotaryEmbedding.__init__.
      erewrite init_Ok; [simpl; eexists; reflexivity|].
      apply linear_cache_Ok; assumption.
Qed.

Lemma X7_base_linear_errors_witness :
  construct (Linear 2) 4 4 (-8) 10000 true = Raise RuntimeError.
Proof.
  apply (X7_base_linear_errors (Linear 2) 4 4 (-8) 10000 true).
  - right. exists 2. reflexivity.
  - right. simpl. lra.
Defined.

Lemma ntk_base_Raise (sf : R) (self : rope_attrs) :
  max_position_embeddings self = 0%Z \/ rotary_dim self = 2%Z ->
  DynamicNTKScalingRotaryEmbedding.ntk_base sf self = Raise ZeroDivisionError.
Proof.
  intros H. unfold DynamicNTKScalingRotaryEmbedding.ntk_base, Py.div.
  destruct (Req_dec_T (IZR (max_position_embeddings self)) 0) as [E|N];
    [reflexivity|]. simpl.
  destruct (Req_dec_T (IZR (rotary_dim self - 2)) 0) as [E|N2];
    [reflexivity|].
  exfalso. destruct H as [H|H].
  - apply N. now rewrite H.
  - apply N2. now rewrite H.
Qed.

(** X8: The dynamic-NTK class fails with a [ZeroDivisionError] exactly for
    [max_position_embeddings = 0] or [rotary_dim = 2], which it does not
    check; otherwise it fails, like the base class, with the [RuntimeError]
    of [torch.arange] for a negative [rotary_dim] or a negative
    [max_position_embeddings * scaling_factor], and is built in every other
    case. *)
Theorem X8_ntk_errors (sf : R) (hs d mp : Z) (b : R) (neox : bool) :
  (mp = 0%Z \/ d = 2%Z ->
   construct (DynamicNTK sf) hs d mp b neox = Raise ZeroDivisionError) /\
  (mp <> 0%Z -> d <> 2%Z -> (d < 0)%Z \/ IZR mp * sf < 0 ->
   construct (DynamicNTK sf) hs d mp b neox = Raise RuntimeError) /\
  (mp <> 0%Z -> d <> 2%Z -> (0 <= d)%Z -> 0 <= IZR mp * sf ->
   exists obj, construct (DynamicNTK sf) hs d mp b neox = Ok obj).
Proof.
  set (self := {| head_size := hs; rotary_dim := d;
                  max_position_embeddings := mp; base := b;
                  is_neox_style := neox |}).
  simpl. unfold DynamicNTKScalingRotaryEmbedding.__init__.
  split; [|split].
  - intros H.
    rewrite (init_Raise _ hs d mp b neox ZeroDivisionError); [reflexivity|].
    fold self. unfold DynamicNTKScalingRotaryEmbedding._compute_cos_sin_cache.
    now rewrite ntk_base_Raise.
  - intros Hm Hd Hneg.
    rewrite (init_Raise _ hs d mp b neox RuntimeError); [reflexivity|].
    fold self. unfold DynamicNTKScalingRotaryEmbedding._compute_cos_sin_cache.
    rewrite ntk_base_Ok by assumption. simpl.
    destruct (Z_lt_le_dec d 0) as [Hd0|Hd0].
    + now rewrite compute_inv_freq_Raise.
    + rewrite compute_inv_freq_Ok by assumption. simpl.
      rewrite arange_neg by (destruct Hneg; [lia | assumption]).
      reflexivity.
  - intros Hm Hd Hd0 Hpos.
    erewrite init_Ok; [simpl; eexists; reflexivity|].
    eapply ntk_cache_Ok; [now apply ntk_base_Ok | assumption ..].
Qed.

Lemma X8_ntk_errors_witness :
  construct (DynamicNTK 2) 2 2 2048 10000 true = Raise ZeroDivisionError.
Proof.
  apply (X8_ntk_errors 2 2 2 2048 10000 true). right. reflexivity.
Defined.

(** ** The YaRN helpers, further *)

(** X9: [_yarn_get_mscale] never raises ([math.log] is only reached above 1);
    its value is at least 1 and does not decrease with the scale. *)
Theorem X9_yarn_mscale_monotone (s1 s2 : R) :
  exists m1 m2,
    _yarn_get_mscale s1 = Ok m1 /\ _yarn_get_mscale s2 = Ok m2 /\
    1 <= m1 /\ (s1 <= s2 -> m1 <= m2).
Proof.
  exists (mscale_factor s1), (mscale_factor s2).
  rewrite !yarn_get_mscale_Ok. split; [reflexivity|]. split; [reflexivity|].
  assert (Hge : forall s, 1 <= mscale_factor s).
  { intros s. unfold mscale_factor. destruct (Rle_dec s 1) as [H|H]; [lra|].
    assert (0 < ln s) by (rewrite <- ln_1; apply ln_increasing; lra). lra. }
  split; [apply Hge|]. intros Hle.
  unfold mscale_factor at 1.
  destruct (Rle_dec s1 1) as [H1|H1]; [apply Hge|].
  unfold mscale_factor. destruct (Rle_dec s2 1) as [H2|H2]; [lra|].
  destruct Hle as [Hlt | ->]; [|lra].
  assert (ln s1 < ln s2) by (apply ln_increasing; lra). lra.
Qed.

Lemma X9_yarn_mscale_monotone_witness :
  exists m1 m2,
    _yarn_get_mscale 2 = Ok m1 /\ _yarn_get_mscale 4 = Ok m2 /\ m1 <= m2.
Proof.
  destruct (X9_yarn_mscale_monotone 2 4) as (m1 & m2 & H1 & H2 & _ & Hle).
  exists m1, m2. split; [exact H1|]. split; [exact H2|]. apply Hle. lra.
Defined.

Lemma clamp01_bounds (x : R) : 0 <= clamp01 x <= 1.
Proof.
  unfold clamp01, Rmin, Rmax.
  destruct (Rle_dec x 0); destruct (Rle_dec _ 1); lra.
Qed.

Lemma clamp01_monotone (x y : R) : x <= y -> clamp01 x <= clamp01 y.
Proof.
  intros H. unfold clamp01, Rmin, Rmax.
  destruct (Rle_dec x 0); destruct (Rle_dec y 0);
    repeat destruct (Rle_dec _ 1); lra.
Qed.

Lemma clamp01_low (x : R) : x <= 0 -> clamp01 x = 0.
Proof.
  intros H. unfold clamp01, Rmin, Rmax.
  destruct (Rle_dec x 0); destruct (Rle_dec _ 1); lra.
Qed.

Lemma clamp01_high (x : R) : 1 <= x -> clamp01 x = 1.
Proof.
  intros H. unfold clamp01, Rmin, Rmax.
  destruct (Rle_dec x 0); destruct (Rle_dec _ 1); lra.
Qed.

Lemma ramp_mask_Ok (low high : R) (dim : Z) :
  (0 <= dim)%Z ->
  _yarn_linear_ramp_mask low high dim
  = Ok (map (fun j => clamp01 ((INR j - low) / (ramp_high low high - low)))
            (seq 0 (Z.to_nat dim))).
Proof.
  intros Hd. unfold _yarn_linear_ramp_mask.
  rewrite arange_upto by (now apply (IZR_le 0)). simpl. rewrite ceil_IZR.
  unfold clamp, div_scalar, sub_scalar, upto. now rewrite !map_map.
Qed.

Lemma ramp_high_gap (low high : R) :
  low <= high -> 0 < ramp_high low high - low.
Proof.
  intros H. unfold ramp_high. destruct (Req_dec_T low high); lra.
Qed.

Lemma Rdiv_le_mono (a b c : R) : 0 < c -> a <= b -> a / c <= b / c.
Proof.
  intros Hc H. unfold Rdiv. apply Rmult_le_compat_r; [|assumption].
  left. now apply Rinv_0_lt_compat.
Qed.

(** X10: [_yarn_linear_ramp_mask] raises for a negative [dim] and otherwise
    returns [dim] values within [[0, 1]]; for [low <= high] they do not
    decrease along the index, and for [low < high] they are 0 up to [low]
    and 1 from [high] on. *)
Theorem X10_yarn_ramp_mask (low high : R) (dim : Z) :
  ((dim < 0)%Z -> _yarn_linear_ramp_mask low high dim = Raise RuntimeError) /\
  ((0 <= dim)%Z ->
   exists r,
     _yarn_linear_ramp_mask low high dim = Ok r /\
     Z.of_nat (length r) = dim /\
     (forall j, (j < length r)%nat -> 0 <= nth j r 0 <= 1) /\
     (low <= high ->
      forall i j, (i <= j < length r)%nat -> nth i r 0 <= nth j r 0) /\
     (low < high ->
      forall j, (j < length r)%nat ->
        (INR j <= low -> nth j r 0 = 0) /\
        (high <= INR j -> nth j r 0 = 1))).
Proof.
  split.
  - intros Hd. unfold _yarn_linear_ramp_mask.
    rewrite arange_neg by (now apply (IZR_lt _ 0)). reflexivity.
  - intros Hd. eexists. split; [now apply ramp_mask_Ok|].
    rewrite length_map, length_seq. split; [lia|]. split; [|split].
    + intros j Hj. rewrite nth_map_seq by assumption. apply clamp01_bounds.
    + intros Hle i j [Hij Hj]. rewrite !nth_map_seq by lia.
      apply clamp01_monotone, Rdiv_le_mono; [now apply ramp_high_gap|].
      apply le_INR in Hij. lra.
    + intros Hlt j Hj. rewrite nth_map_seq by assumption.
      assert (Hgap : ramp_high low high - low = high - low).
      { unfold ramp_high. destruct (Req_dec_T low high); lra. }
      rewrite Hgap. split; intros Hj'.
      * apply clamp01_low.
        replace 0 with (0 / (high - low)) by (unfold Rdiv; ring).
        apply Rdiv_le_mono; lra.
      * apply clamp01_high. apply Rle_div; lra.
Qed.

Lemma X10_yarn_ramp_mask_witness :
  exists r,
    _yarn_linear_ramp_mask 2 5 8 = Ok r /\
    nth 1 r 0 = 0 /\ nth 6 r 0 = 1.
Proof.
  destruct (X10_yarn_ramp_mask 2 5 8) as [_ H].
  destruct H as (r & Hr & Hlen & _ & _ & Hends); [lia|].
  assert (Hl : length r = 8%nat) by lia.
  exists r. split; [exact Hr|]. split.
  - apply (Hends ltac:(lra) 1%nat); [lia | simpl; lra].
  - apply (Hends ltac:(lra) 6%nat); [lia | simpl; lra].
Defined.

(** ** The YaRN inverse frequencies, further *)

Lemma yarn_mask_bounds (low high : Z) (ef : R) (j : nat) :
  0 <= ef <= 1 -> 0 <= yarn_mask_at low high ef j <= 1.
Proof.
  intros Hef. unfold yarn_mask_at.
  pose proof (clamp01_bounds
                ((INR j - IZR low)
                 / (ramp_high (IZR low) (IZR high) - IZR low))).
  nra.
Qed.

(** X11: For a factor [>= 1], an [extrapolation_factor] within [[0, 1]] and a
    positive base, every blended inverse frequency lies between the
    interpolated one, [extrap / scaling_factor], and the extrapolated one,
    [extrap = 1 / base ^ (2 j / rotary_dim)]. *)
Theorem X11_yarn_inv_freq_between (y : yarn_attrs) (self : rope_attrs) (sf : R)
    (f : tensor1) :
  1 <= sf -> 0 <= extrapolation_factor y <= 1 -> 0 < base self ->
  YaRNScalingRotaryEmbedding._compute_inv_freq y self sf = Ok f ->
  forall j : Z, (0 <= j < rotary_dim self / 2)%Z ->
    let extrap :=
      1 / Rpower (base self) (IZR (2 * j) / IZR (rotary_dim self)) in
    extrap / sf <= nth (Z.to_nat j) f 0 <= extrap.
Proof.
  intros Hsf Hef Hb H j Hj extrap.
  apply yarn_inv_freq_nth in H as (low & high & _ & Hnth).
  rewrite Hnth by lia. unfold yarn_inv_freq_at.
  rewrite Z2Nat.id by lia.
  set (pf := Rpower (base self) (IZR (2 * j) / IZR (rotary_dim self))).
  fold pf in extrap.
  set (m := yarn_mask_at low high (extrapolation_factor y) (Z.to_nat j)).
  pose proof (yarn_mask_bounds low high _ (Z.to_nat j) Hef) as Hm. fold m in Hm.
  assert (Hpf : 0 < pf) by apply exp_pos.
  assert (He : 0 < extrap) by (apply Rdiv_lt_0_compat; lra).
  assert (Hi : 1 / (sf * pf) = extrap / sf).
  { unfold extrap. field. lra. }
  rewrite Hi. fold extrap.
  assert (Hle : extrap / sf <= extrap).
  { apply Rmult_le_reg_r with sf; [lra|].
    unfold Rdiv. rewrite Rmult_assoc, Rinv_l by lra. nra. }
  assert (0 < extrap / sf) by (apply Rdiv_lt_0_compat; lra).
  nra.
Qed.

Lemma yarn_example_inv_freq :
  exists f,
    YaRNScalingRotaryEmbedding._compute_inv_freq (yarn_self 4 1 1 32 1)
      {| head_size := 128; rotary_dim := 128; max_position_embeddings := 2048;
         base := 10000; is_neox_style := true |} 4 = Ok f.
Proof.
  set (self := {| head_size := 128; rotary_dim := 128;
                  max_position_embeddings := 2048;
                  base := 10000; is_neox_style := true |}).
  destruct (yarn_correction_range_Ok (yarn_self 4 1 1 32 1) self)
    as (low & high & Hr); simpl; try lra; try lia.
  eexists. apply (yarn_inv_freq_Ok _ self 4 low high); auto. simpl. lia.
Qed.

Lemma X11_yarn_inv_freq_between_witness :
  exists f,
    YaRNScalingRotaryEmbedding._compute_inv_freq (yarn_self 4 1 1 32 1)
      {| head_size := 128; rotary_dim := 128; max_position_embeddings := 2048;
         base := 10000; is_neox_style := true |} 4 = Ok f /\
    nth 5 f 0 <= 1 / Rpower 10000 (IZR (2 * 5) / 128).
Proof.
  destruct yarn_example_inv_freq as [f Hf]. exists f. split; [exact Hf|].
  destruct (X11_yarn_inv_freq_between (yarn_self 4 1 1 32 1)
              {| head_size := 128; rotary_dim := 128;
                 max_position_embeddings := 2048;
                 base := 10000; is_neox_style := true |} 4 f) with (j := 5%Z)
    as [_ Hup]; simpl; try lra; try exact Hf.
  - split; [lia | reflexivity].
  - exact Hup.
Defined.

Lemma yarn_inv_freq_scale_one (b : R) (d : Z) (low high : Z) (ef : R) :
  Z.even d = true ->
  yarn_inv_freq b d 1 low high ef = base_inv_freq b d.
Proof.
  intros Hev. unfold yarn_inv_freq, base_inv_freq, evens.
  rewrite (even_half _ Hev), map_map. apply map_ext. intros j.
  unfold yarn_inv_freq_at.
  assert (0 < Rpower b (IZR (2 * Z.of_nat j) / IZR d)) by apply exp_pos.
  field. lra.
Qed.

Lemma yarn_scale_one_inv_freq (y : yarn_attrs) (self : rope_attrs)
    (f : tensor1) :
  Z.even (rotary_dim self) = true ->
  YaRNScalingRotaryEmbedding._compute_inv_freq y self 1 = Ok f ->
  RotaryEmbedding._compute_inv_freq self (base self) = Ok f.
Proof.
  intros Hev H.
  apply yarn_inv_freq_Ok_inv in H as (low & high & _ & Hd & ->);
    [|assumption].
  rewrite yarn_inv_freq_scale_one by assumption.
  now apply compute_inv_freq_Ok.
Qed.

(** X12: With [scaling_factor = 1] the blend vanishes: for an even [rotary_dim]
    the YaRN inverse frequencies are exactly those of the base variant,
    whatever the correction range and the extrapolation factor. *)
Theorem X12_yarn_scale_one_inv_freq (y : yarn_attrs) (self : rope_attrs)
    (f : tensor1) :
  Z.even (rotary_dim self) = true ->
  YaRNScalingRotaryEmbedding._compute_inv_freq y self 1 = Ok f ->
  RotaryEmbedding._compute_inv_freq self (base self) = Ok f.
Proof. apply yarn_scale_one_inv_freq. Qed.

Lemma X12_yarn_scale_one_inv_freq_witness :
  exists f,
    YaRNScalingRotaryEmbedding._compute_inv_freq (yarn_self 1 1 1 32 1)
      {| head_size := 128; rotary_dim := 128; max_position_embeddings := 2048;
         base := 10000; is_neox_style := true |} 1 = Ok f /\
    RotaryEmbedding._compute_inv_freq
      {| head_size := 128; rotary_dim := 128; max_position_embeddings := 2048;
         base := 10000; is_neox_style := true |} 10000 = Ok f.
Proof.
  set (self := {| head_size := 128; rotary_dim := 128;
                  max_position_embeddings := 2048;
                  base := 10000; is_neox_style := true |}).
  destruct (yarn_correction_range_Ok (yarn_self 1 1 1 32 1) self)
    as (low & high & Hr); simpl; try lra; try lia.
  assert (Hf : YaRNScalingRotaryEmbedding._compute_inv_freq
                 (yarn_self 1 1 1 32 1) self 1
               = Ok (yarn_inv_freq 10000 128 1 low high 1)).
  { apply (yarn_inv_freq_Ok (yarn_self 1 1 1 32 1) self 1 low high);
      [reflexivity | simpl; lia | exact Hr]. }
  eexists. split; [exact Hf|].
  apply (X12_yarn_scale_one_inv_freq _ self _ ltac:(reflexivity) Hf).
Defined.

Lemma table_ext (g h : R -> R) (t f : tensor1) :
  (forall x, g x = h x) -> table g t f = table h t f.
Proof.
  intros E. unfold table. apply map_ext. intros ti. unfold table_row.
  f_equal; apply map_ext; intros fj; apply E.
Qed.

(** X13: With [scaling_factor = 1] and [attn_factor = 1] (and an even
    [rotary_dim]) a YaRN object holds exactly the object the base class
    builds from the same arguments. *)
Theorem X13_yarn_scale_one_is_base (hs d mp : Z) (b : R) (neox : bool)
    (ef bf bs : R) (obj : YaRNScalingRotaryEmbedding.t) :
  Z.even d = true ->
  YaRNScalingRotaryEmbedding.__init__ hs d mp b neox 1 ef 1 bf bs = Ok obj ->
  RotaryEmbedding.new hs d mp b neox
  = Ok (YaRNScalingRotaryEmbedding.super obj).
Proof.
  intros Hev H. apply yarn_init_Ok_inv in H as [_ H].
  pose proof (init_Ok_inv _ _ _ _ _ _ _ H) as [Ha Hc].
  rewrite Ha in Hc.
  set (self := {| head_size := hs; rotary_dim := d;
                  max_position_embeddings := mp; base := b;
                  is_neox_style := neox |}) in *.
  apply yarn_cache_Ok_inv in Hc as (f & Hf & Hm & Hc).
  simpl in Hf, Hm, Hc.
  apply (yarn_scale_one_inv_freq _ self f Hev) in Hf.
  apply compute_inv_freq_Ok_inv in Hf as [Hd ->].
  assert (Hm' : (0 <= mp)%Z) by (apply le_IZR; lra).
  assert (Hb : RotaryEmbedding._compute_cos_sin_cache self
               = Ok (RotaryEmbedding.cos_sin_cache
                       (YaRNScalingRotaryEmbedding.super obj))).
  { rewrite base_cache_Ok by assumption. rewrite Hc.
    rewrite (Rmult_1_r (IZR mp)), ceil_IZR. apply f_equal, table_ext.
    intros x. unfold keep, mscale_factor.
    destruct (Rle_dec 1 1) as [_|N]; [ring | exfalso; lra]. }
  unfold RotaryEmbedding.new. rewrite (init_Ok _ hs d mp b neox _ Hb).
  fold self. rewrite <- Ha.
  destruct (YaRNScalingRotaryEmbedding.super obj). reflexivity.
Qed.

Lemma X13_yarn_scale_one_is_base_witness :
  exists obj,
    YaRNScalingRotaryEmbedding.__init__ 128 128 2048 10000 true 1 1 1 32 1
    = Ok obj /\
    RotaryEmbedding.new 128 128 2048 10000 true
    = Ok (YaRNScalingRotaryEmbedding.super obj).
Proof.
  destruct (yarn_init_Ok 128 128 2048 10000 true 1 1 1 32 1) as [obj H];
    try reflexivity; try lia; try lra.
  exists obj. split; [exact H|].
  apply (X13_yarn_scale_one_is_base 128 128 2048 10000 true 1 32 1 obj
           ltac:(reflexivity) H).
Defined.

(** ** YaRN with an odd [rotary_dim] *)

Lemma broadcast_Raise (f : R -> R -> R) (a b : tensor1) :
  length a <> length b -> length a <> 1%nat -> length b <> 1%nat ->
  broadcast f a b = Raise RuntimeError.
Proof.
  intros H1 H2 H3. unfold broadcast.
  destruct (Nat.eqb_spec (length a) (length b)); [contradiction|].
  destruct (Nat.eqb_spec (length a) 1); [contradiction|].
  destruct (Nat.eqb_spec (length b) 1); [contradiction|].
  reflexivity.
Qed.

Lemma yarn_odd_Raise (y : yarn_attrs) (self : rope_attrs) (sf : R) :
  Z.odd (rotary_dim self) = true -> (5 <= rotary_dim self)%Z ->
  (forall f,
     YaRNScalingRotaryEmbedding._compute_inv_freq y self sf <> Ok f) /\
  ((exists low high,
      YaRNScalingRotaryEmbedding.correction_range y self = Ok (low, high)) ->
   YaRNScalingRotaryEmbedding._compute_inv_freq y self sf
   = Raise RuntimeError).
Proof.
  intros Hodd Hd.
  assert (Hshape : forall low high,
            YaRNScalingRotaryEmbedding.correction_range y self
            = Ok (low, high) ->
            YaRNScalingRotaryEmbedding._compute_inv_freq y self sf
            = Raise RuntimeError).
  { intros low high Hr.
    pose proof Hodd as Hk. apply Z.odd_spec in Hk. destruct Hk as [k Hk].
    assert (H1 : ((rotary_dim self + 1) / 2 = k + 1)%Z).
    { rewrite Hk. replace (2 * k + 1 + 1)%Z with ((k + 1) * 2)%Z by lia.
      apply Z.div_mul. lia. }
    assert (H2 : (rotary_dim self / 2 = k)%Z).
    { rewrite Hk, (Z.mul_comm 2 k), Z.div_add_l by lia.
      change (1 / 2)%Z with 0%Z. lia. }
    unfold YaRNScalingRotaryEmbedding._compute_inv_freq.
    rewrite arange3_evens by lia. simpl. rewrite Hr. simpl.
    rewrite inv_freq_mask_Ok by lia. simpl.
    unfold mul. rewrite broadcast_Raise; [reflexivity | ..];
      unfold scalar_div, scalar_mul, scalar_pow, div_scalar, scalar_sub;
      rewrite !length_map, ?length_evens, ?length_seq, ?H1, ?H2; lia. }
  split.
  - intros f H. pose proof H as H'.
    unfold YaRNScalingRotaryEmbedding._compute_inv_freq in H'.
    bind_inv H' as r Hr. bind_inv H' as lh Hlh. destruct lh as [low high].
    rewrite (Hshape low high Hlh) in H. discriminate.
  - intros (low & high & Hr). exact (Hshape low high Hr).
Qed.

(** X14: Unlike the base class, the YaRN class cannot be built with an odd
    [rotary_dim >= 5]: the [rotary_dim // 2] mask entries do not broadcast
    against the [ceil(rotary_dim / 2)] frequencies.  No object is returned,
    and when the correction range exists and [max_position_embeddings] is not
    negative the error is the [RuntimeError] of the failed broadcast. *)
Theorem X14_yarn_odd_rotary_dim_fails (hs d mp : Z) (b : R) (neox : bool)
    (sf ef af bf bs : R) :
  Z.odd d = true -> (5 <= d)%Z ->
  (forall obj,
     YaRNScalingRotaryEmbedding.__init__ hs d mp b neox sf ef af bf bs
     <> Ok obj) /\
  (0 < bf -> 0 < bs -> (0 < mp)%Z -> 0 < b -> b <> 1 ->
   YaRNScalingRotaryEmbedding.__init__ hs d mp b neox sf ef af bf bs
   = Raise RuntimeError).
Proof.
  intros Hodd Hd.
  set (self := {| head_size := hs; rotary_dim := d;
                  max_position_embeddings := mp; base := b;
                  is_neox_style := neox |}).
  set (y := yarn_self sf ef af bf bs).
  destruct (yarn_odd_Raise y self sf Hodd Hd) as [Hno Hrt].
  split.
  - intros obj H. apply yarn_init_Ok_inv in H as [_ H].
    apply init_Ok_inv in H as [Ha Hc]. rewrite Ha in Hc.
    apply yarn_cache_Ok_inv in Hc as (f & Hf & _). exact (Hno f Hf).
  - intros Hbf Hbs Hm Hb Hb1.
    unfold YaRNScalingRotaryEmbedding.__init__.
    rewrite yarn_get_mscale_Ok. simpl.
    rewrite (init_Raise _ hs d mp b neox RuntimeError); [reflexivity|].
    change (YaRNScalingRotaryEmbedding._compute_cos_sin_cache y self
            = Raise RuntimeError).
    unfold YaRNScalingRotaryEmbedding._compute_cos_sin_cache.
    change (scaling_factor y) with sf.
    rewrite Hrt; [reflexivity|].
    apply yarn_correction_range_Ok; assumption.
Qed.

Lemma X14_yarn_odd_rotary_dim_fails_witness :
  YaRNScalingRotaryEmbedding.__init__ 128 5 2048 10000 true 4 1 1 32 1
  = Raise RuntimeError.
Proof.
  apply (X14_yarn_odd_rotary_dim_fails 128 5 2048 10000 true 4 1 1 32 1);
    try reflexivity; try lia; try lra.
Defined.

(** ** The correction range, further *)

Lemma correction_quotient_sign (r : R) (mp : Z) :
  r <> 0 -> (0 < IZR mp / (r * 2 * PI) <-> 0 < IZR mp * r).
Proof.
  intros Hr. pose proof PI_RGT_0 as Hpi.
  assert (Hrr : 0 < r * r) by nra.
  replace (IZR mp / (r * 2 * PI)) with (IZR mp * r / (r * r * 2 * PI))
    by (field; split; lra).
  assert (Hden : 0 < r * r * 2 * PI) by nra.
  split; intros H.
  - apply Rmult_lt_reg_r with (/ (r * r * 2 * PI));
      [now apply Rinv_0_lt_compat|].
    rewrite Rmult_0_l. exact H.
  - apply Rdiv_lt_0_compat; assumption.
Qed.

(** X15: [_yarn_find_correction_dim] checks no argument itself; what it raises
    comes from [/] and [math.log]: a [ZeroDivisionError] for
    [num_rotations = 0] and for [base = 1], a [ValueError] when
    [max_position_embeddings] and [num_rotations] do not have the same strict
    sign or [base <= 0]; in every other case it returns
    [dim * ln(max_position_embeddings / (num_rotations * 2 * pi))
     / (2 * ln(base))]. *)
Theorem X15_yarn_correction_dim_errors (r : R) (dim : Z) (b : R) (mp : Z) :
  (r = 0 -> _yarn_find_correction_dim r dim b mp = Raise ZeroDivisionError) /\
  (r <> 0 -> IZR mp * r <= 0 ->
   _yarn_find_correction_dim r dim b mp = Raise ValueError) /\
  (0 < IZR mp * r -> b <= 0 ->
   _yarn_find_correction_dim r dim b mp = Raise ValueError) /\
  (0 < IZR mp * r -> b = 1 ->
   _yarn_find_correction_dim r dim b mp = Raise ZeroDivisionError) /\
  (0 < IZR mp * r -> 0 < b -> b <> 1 ->
   _yarn_find_correction_dim r dim b mp
   = Ok (IZR dim * ln (IZR mp / (r * 2 * PI)) / (2 * ln b))).
Proof.
  pose proof PI_RGT_0 as Hpi.
  assert (Hq : 0 < IZR mp * r -> r <> 0 /\ 0 < IZR mp / (r * 2 * PI)).
  { intros H. assert (Hr : r <> 0) by (intros ->; lra).
    split; [exact Hr | now apply (correction_quotient_sign r mp Hr)]. }
  unfold _yarn_find_correction_dim, Py.div, Py.log, Py.pi.
  split; [|split; [|split; [|split]]].
  - intros ->. destruct (Req_dec_T (0 * 2 * PI) 0) as [_|N];
      [reflexivity | exfalso; lra].
  - intros Hr Hle.
    destruct (Req_dec_T (r * 2 * PI) 0) as [E|_]; [exfalso; nra|]. simpl.
    destruct (Rlt_dec 0 (IZR mp / (r * 2 * PI))) as [H|_]; [|reflexivity].
    apply (proj1 (correction_quotient_sign r mp Hr)) in H. lra.
  - intros Hpos Hb. destruct (Hq Hpos) as [Hr Hq'].
    destruct (Req_dec_T (r * 2 * PI) 0) as [E|_]; [exfalso; nra|]. simpl.
    destruct (Rlt_dec 0 (IZR mp / (r * 2 * PI))) as [_|N]; [|contradiction].
    simpl. destruct (Rlt_dec 0 b) as [H|_]; [lra | reflexivity].
  - intros Hpos ->. destruct (Hq Hpos) as [Hr Hq'].
    destruct (Req_dec_T (r * 2 * PI) 0) as [E|_]; [exfalso; nra|]. simpl.
    destruct (Rlt_dec 0 (IZR mp / (r * 2 * PI))) as [_|N]; [|contradiction].
    simpl. destruct (Rlt_dec 0 1) as [_|N]; [|exfalso; lra]. simpl.
    destruct (Req_dec_T (2 * ln 1) 0) as [_|N]; [reflexivity|].
    exfalso. apply N. rewrite ln_1. ring.
  - intros Hpos Hb Hb1. destruct (Hq Hpos) as [Hr Hq'].
    now apply find_correction_dim_Ok.
Qed.

Lemma X15_yarn_correction_dim_errors_witness :
  _yarn_find_correction_dim 32 128 1 2048 = Raise ZeroDivisionError.
Proof.
  apply (X15_yarn_correction_dim_errors 32 128 1 2048); [lra | reflexivity].
Defined.

Lemma floor_le (x : R) (z : Z) : x < IZR z -> (Py.floor x < z)%Z.
Proof.
  intros H. apply lt_IZR. destruct (floor_bounds x). lra.
Qed.

Lemma ceil_ge (x : R) (z : Z) : IZR z <= x -> (z <= Py.ceil x)%Z.
Proof.
  intros H. apply le_IZR. destruct (ceil_bounds x). lra.
Qed.

Lemma floor_le_ceil (x y : R) : x <= y -> (Py.floor x <= Py.ceil y)%Z.
Proof.
  intros H. apply le_IZR.
  destruct (floor_bounds x). destruct (ceil_bounds y). lra.
Qed.

(** X16: The clamping alone does not order the range (C10), the usual
    arguments do: with [beta_slow <= beta_fast], a base above 1, [dim >= 1]
    and [2 pi beta_slow <= max_position_embeddings
    < 2 pi beta_fast base^2] the call
    [_yarn_find_correction_range(beta_fast, beta_slow, ...)] returns
    [0 <= low <= high <= dim - 1]. *)
Theorem X16_yarn_range_ordered (bf bs : R) (dim : Z) (b : R) (mp : Z) :
  0 < bs -> bs <= bf -> (1 <= dim)%Z -> 1 < b ->
  2 * PI * bs <= IZR mp -> IZR mp < 2 * PI * bf * (b * b) ->
  exists low high,
    _yarn_find_correction_range bf bs dim b mp = Ok (low, high) /\
    (0 <= low <= high)%Z /\ (high <= dim - 1)%Z.
Proof.
  intros Hbs Hle Hdim Hb Hlo Hhi. pose proof PI_RGT_0 as Hpi.
  assert (Hmp : 0 < IZR mp) by nra.
  assert (Hmpz : (0 < mp)%Z) by now apply lt_IZR.
  rewrite find_correction_range_Ok by (lra || assumption).
  do 2 eexists. split; [reflexivity|].
  set (xf := correction_dim bf dim b mp).
  set (xs := correction_dim bs dim b mp).
  assert (Hlnb : 0 < ln b) by (rewrite <- ln_1; apply ln_increasing; lra).
  assert (Hd : 1 <= IZR dim) by now apply (IZR_le 1).
  assert (Hqf : 0 < IZR mp / (bf * 2 * PI))
    by (apply Rdiv_lt_0_compat; nra).
  assert (Hqs : 1 <= IZR mp / (bs * 2 * PI)) by (apply Rle_div; nra).
  assert (Hqfs : IZR mp / (bf * 2 * PI) <= IZR mp / (bs * 2 * PI)).
  { unfold Rdiv. apply Rmult_le_compat_l; [lra|].
    apply Rinv_le_contravar; nra. }
  assert (Hlnfs : ln (IZR mp / (bf * 2 * PI)) <= ln (IZR mp / (bs * 2 * PI))).
  { destruct Hqfs as [Hlt|Heq]; [left; now apply ln_increasing|].
    rewrite Heq. lra. }
  assert (Hlns : 0 <= ln (IZR mp / (bs * 2 * PI))).
  { rewrite <- ln_1. destruct Hqs as [Hlt|Heq];
      [left; apply ln_increasing; lra | rewrite <- Heq; lra]. }
  assert (Hlnf : ln (IZR mp / (bf * 2 * PI)) < 2 * ln b).
  { replace (2 * ln b) with (ln (b * b)) by (rewrite ln_mult; lra).
    apply ln_increasing; [assumption|].
    apply Rmult_lt_reg_r with (bf * 2 * PI); [nra|].
    unfold Rdiv. rewrite Rmult_assoc, Rinv_l by nra. nra. }
  assert (Hxfs : xf <= xs).
  { unfold xf, xs, correction_dim. apply Rdiv_le_mono; nra. }
  assert (Hxs : 0 <= xs).
  { unfold xs, correction_dim. apply Rle_div; nra. }
  assert (Hxf : xf < IZR dim).
  { unfold xf, correction_dim.
    apply Rmult_lt_reg_r with (2 * ln b); [lra|].
    unfold Rdiv. rewrite Rmult_assoc, Rinv_l by lra. nra. }
  pose proof (floor_le xf dim Hxf).
  pose proof (ceil_ge xs 0 Hxs).
  pose proof (floor_le_ceil xf xs Hxfs).
  lia.
Qed.

Lemma X16_yarn_range_ordered_witness :
  exists low high,
    _yarn_find_correction_range 32 1 128 10000 2048 = Ok (low, high) /\
    (0 <= low <= high)%Z /\ (high <= 128 - 1)%Z.
Proof.
  pose proof PI_4. pose proof PI2_3_2.
  apply (X16_yarn_range_ordered 32 1 128 10000 2048); try lra; try lia.
Defined.

(** * The configuration classes *)

Lemma cfg_bind_Return_inv {A B : Type} (m : Cfg.outcome A)
    (k : A -> Cfg.outcome B) (b : B) :
  Cfg.bind m k = Cfg.Return b ->
  exists a, m = Cfg.Return a /\ k a = Cfg.Return b.
Proof.
  destruct m as [a|e]; simpl; intros H; [exists a; auto | discriminate].
Qed.

(** ** SchedulerConfig *)

(** X17: Every [SchedulerConfig] that is built has a token budget that covers
    both the model length and the number of sequences. *)
Theorem X17_scheduler_invariant (batched : option Z) (seqs len : Z)
    (cfg : SchedulerConfig.t) :
  SchedulerConfig.__init__ batched seqs len = Cfg.Return cfg ->
  (SchedulerConfig.max_model_len cfg
   <= SchedulerConfig.max_num_batched_tokens cfg)%Z /\
  (SchedulerConfig.max_num_seqs cfg
   <= SchedulerConfig.max_num_batched_tokens cfg)%Z /\
  SchedulerConfig.max_num_seqs cfg = seqs /\
  SchedulerConfig.max_model_len cfg = len.
Proof.
  unfold SchedulerConfig.__init__, SchedulerConfig._verify_args. simpl.
  intros H.
  destruct (Z.ltb_spec
              (match batched with
               | Some m => m
               | None => Z.max len 2048
               end) len) as [|H1]; [discriminate|].
  destruct (Z.ltb_spec
              (match batched with
               | Some m => m
               | None => Z.max len 2048
               end) seqs) as [|H2]; [discriminate|].
  simpl in H. injection H as <-. simpl. auto.
Qed.

Lemma X17_scheduler_invariant_witness :
  exists cfg,
    SchedulerConfig.__init__ (Some 4096%Z) 256 4096 = Cfg.Return cfg /\
    (SchedulerConfig.max_num_seqs cfg
     <= SchedulerConfig.max_num_batched_tokens cfg)%Z.
Proof.
  eexists. split; [reflexivity|].
  apply (X17_scheduler_invariant (Some 4096%Z) 256 4096). reflexivity.
Defined.

(** X18: Without [max_num_batched_tokens] the budget is
    [max(max_model_len, 2048)], which always covers the model length: the
    construction fails exactly when [max_num_seqs] exceeds that budget. *)
Theorem X18_scheduler_default_budget (seqs len : Z) :
  ((Z.max len 2048 < seqs)%Z ->
   SchedulerConfig.__init__ None seqs len = Cfg.Throw Cfg.ValueError) /\
  ((seqs <= Z.max len 2048)%Z ->
   SchedulerConfig.__init__ None seqs len
   = Cfg.Return
       {| SchedulerConfig.max_num_batched_tokens := Z.max len 2048;
          SchedulerConfig.max_num_seqs := seqs;
          SchedulerConfig.max_model_len := len |}).
Proof.
  unfold SchedulerConfig.__init__, SchedulerConfig._verify_args. simpl.
  destruct (Z.ltb_spec (Z.max len 2048) len) as [H1|H1]; [lia|].
  destruct (Z.ltb_spec (Z.max len 2048) seqs) as [H2|H2];
    split; intros H; try lia; reflexivity.
Qed.

Lemma X18_scheduler_default_budget_witness :
  SchedulerConfig.__init__ None 4096 1024 = Cfg.Throw Cfg.ValueError.
Proof.
  apply (X18_scheduler_default_budget 4096 1024). reflexivity.
Defined.

(** ** ParallelConfig *)

(** X19: A [ParallelConfig] is built exactly when [pipeline_parallel_size <= 1];
    it then holds [world_size = pipeline_parallel_size
    * tensor_parallel_size], and [worker_use_ray] is forced to [True] when
    the world size exceeds 1 and is the caller's choice otherwise. *)
Theorem X19_parallel_config (pp tp : Z) (ray : bool) :
  ((1 < pp)%Z ->
   ParallelConfig.__init__ pp tp ray = Cfg.Throw Cfg.NotImplementedError) /\
  ((pp <= 1)%Z ->
   exists cfg,
     ParallelConfig.__init__ pp tp ray = Cfg.Return cfg /\
     ParallelConfig.world_size cfg = (pp * tp)%Z /\
     ((1 < pp * tp)%Z -> ParallelConfig.worker_use_ray cfg = true) /\
     ((pp * tp <= 1)%Z -> ParallelConfig.worker_use_ray cfg = ray)).
Proof.
  unfold ParallelConfig.__init__, ParallelConfig._verify_args. simpl.
  destruct (Z.ltb_spec 1 pp) as [H1|H1]; split; intros H; try lia;
    [reflexivity|].
  eexists. split; [reflexivity|]. simpl. split; [reflexivity|].
  destruct (Z.ltb_spec 1 (pp * tp)); split; intros; try lia; reflexivity.
Qed.

Lemma X19_parallel_config_witness :
  exists cfg,
    ParallelConfig.__init__ 1 4 false = Cfg.Return cfg /\
    ParallelConfig.worker_use_ray cfg = true.
Proof.
  destruct (X19_parallel_config 1 4 false) as [_ H].
  destruct H as (cfg & Hc & _ & Hray & _); [lia|].
  exists cfg. split; [exact Hc|]. apply Hray. lia.
Defined.

(** ** ModelConfig *)

Lemma mod_Return_inv (a b r : Z) :
  Cfg.mod_ a b = Cfg.Return r -> b <> 0%Z /\ r = (a mod b)%Z.
Proof.
  unfold Cfg.mod_. destruct (Z.eqb_spec b 0); [discriminate|].
  intros H. injection H as <-. auto.
Qed.

Lemma floordiv_Return (a b : Z) :
  b <> 0%Z -> Cfg.floordiv a b = Cfg.Return (a / b)%Z.
Proof.
  intros H. unfold Cfg.floordiv. destruct (Z.eqb_spec b 0); [lia|].
  reflexivity.
Qed.

Lemma verify_parallel_inv (hf : hf_config) (pc : ParallelConfig.t) :
  ModelConfig.verify_with_parallel_config hf pc = Cfg.Return tt ->
  ParallelConfig.tensor_parallel_size pc <> 0%Z /\
  ParallelConfig.pipeline_parallel_size pc <> 0%Z /\
  (num_attention_heads hf mod ParallelConfig.tensor_parallel_size pc = 0)%Z /\
  (num_hidden_layers hf mod ParallelConfig.pipeline_parallel_size pc = 0)%Z.
Proof.
  unfold ModelConfig.verify_with_parallel_config. intros H.
  apply cfg_bind_Return_inv in H as (r1 & Hr1 & H).
  apply mod_Return_inv in Hr1 as [Htp ->].
  destruct (Z.eqb_spec (num_attention_heads hf
                        mod ParallelConfig.tensor_parallel_size pc) 0)
    as [E1|]; [|discriminate].
  simpl in H. apply cfg_bind_Return_inv in H as (r2 & Hr2 & H).
  apply mod_Return_inv in Hr2 as [Hpp ->].
  destruct (Z.eqb_spec (num_hidden_layers hf
                        mod ParallelConfig.pipeline_parallel_size pc) 0)
    as [E2|]; [|discriminate].
  auto.
Qed.

(** X20: After [verify_with_parallel_config] the workers partition the model
    exactly: [get_num_layers] times the pipeline size is the number of
    layers, and, when the configuration names no separate KV-head count,
    [get_num_kv_heads] times the tensor-parallel size is the number of
    attention heads.  Neither getter can then divide by zero. *)
Theorem X20_model_exact_partition (hf : hf_config) (pc : ParallelConfig.t) :
  ModelConfig.verify_with_parallel_config hf pc = Cfg.Return tt ->
  exists layers kv,
    ModelConfig.get_num_layers hf pc = Cfg.Return layers /\
    (layers * ParallelConfig.pipeline_parallel_size pc
     = num_hidden_layers hf)%Z /\
    ModelConfig.get_num_kv_heads hf pc = Cfg.Return kv /\
    (total_kv_heads hf = num_attention_heads hf ->
     (kv * ParallelConfig.tensor_parallel_size pc
      = num_attention_heads hf)%Z).
Proof.
  intros H. apply verify_parallel_inv in H as (Htp & Hpp & Hh & Hl).
  exists (num_hidden_layers hf / ParallelConfig.pipeline_parallel_size pc)%Z,
         (total_kv_heads hf / ParallelConfig.tensor_parallel_size pc)%Z.
  split; [now apply floordiv_Return|]. split.
  { pose proof (Z.div_mod (num_hidden_layers hf)
                  (ParallelConfig.pipeline_parallel_size pc) Hpp). lia. }
  split.
  { unfold ModelConfig.get_num_kv_heads, total_kv_heads.
    destruct (n_head_kv hf), (num_kv_heads hf), (num_key_value_heads hf);
      now apply floordiv_Return. }
  intros ->.
  pose proof (Z.div_mod (num_attention_heads hf)
                (ParallelConfig.tensor_parallel_size pc) Htp). lia.
Qed.

Lemma X20_model_exact_partition_witness :
  exists layers kv,
    ModelConfig.get_num_layers llama_config four_workers = Cfg.Return layers /\
    ModelConfig.get_num_kv_heads llama_config four_workers = Cfg.Return kv /\
    (kv * 4 = 32)%Z.
Proof.
  destruct (X20_model_exact_partition llama_config four_workers)
    as (layers & kv & Hl & _ & Hk & Hkv); [reflexivity|].
  exists layers, kv. split; [exact Hl|]. split; [exact Hk|].
  apply Hkv. reflexivity.
Defined.

(** X21: A separate KV-head count is not verified: setting [n_head_kv] changes
    nothing in [verify_with_parallel_config], and [get_num_kv_heads] rounds
    its quotient by a positive tensor-parallel size down, to 0 KV heads per
    worker when there are fewer KV heads than workers. *)
Theorem X21_kv_heads_unchecked (hf : hf_config) (pc : ParallelConfig.t)
    (n : Z) :
  let tp := ParallelConfig.tensor_parallel_size pc in
  ModelConfig.verify_with_parallel_config (with_n_head_kv hf n) pc
  = ModelConfig.verify_with_parallel_config hf pc /\
  ((0 < tp)%Z ->
   exists kv,
     ModelConfig.get_num_kv_heads (with_n_head_kv hf n) pc = Cfg.Return kv /\
     (kv * tp <= n < kv * tp + tp)%Z /\
     ((0 <= n < tp)%Z -> kv = 0%Z)).
Proof.
  intros tp. split; [reflexivity|]. intros Htp.
  exists (n / tp)%Z. split.
  - unfold ModelConfig.get_num_kv_heads. simpl. apply floordiv_Return.
    fold tp. lia.
  - pose proof (Z.div_mod n tp ltac:(lia)).
    pose proof (Z.mod_pos_bound n tp Htp). split; [lia|].
    intros Hn. apply Z.div_small. exact Hn.
Qed.

Lemma X21_kv_heads_unchecked_witness :
  ModelConfig.verify_with_parallel_config (with_n_head_kv llama_config 1)
    four_workers = Cfg.Return tt /\
  ModelConfig.get_num_kv_heads (with_n_head_kv llama_config 1) four_workers
  = Cfg.Return 0%Z.
Proof.
  destruct (X21_kv_heads_unchecked llama_config four_workers 1) as [Hv Hk].
  split.
  - rewrite Hv. reflexivity.
  - destruct Hk as (kv & Hkv & _ & Hz); [reflexivity|].
    rewrite Hkv. f_equal. apply Hz. simpl. lia.
Defined.

(** ** _get_and_verify_max_len *)

(** The loop over the keys: no result when no key is set, else the least of
    the values that are set. *)
Lemma derive_fold_spec (hf : hf_config) (keys : list (hf_config -> option Z))
    (acc : option Z) :
  let step := fun derived (key : hf_config -> option Z) =>
    match key hf with
    | Some max_len_key =>
        Some (match derived with
              | None => max_len_key
              | Some d => Z.min d max_len_key
              end)
    | None => derived
    end in
  match fold_left step keys acc with
  | None => acc = None /\ forall key, In key keys -> key hf = None
  | Some d =>
      (acc = Some d \/ exists key, In key keys /\ key hf = Some d) /\
      (forall a, acc = Some a -> (d <= a)%Z) /\
      (forall key v, In key keys -> key hf = Some v -> (d <= v)%Z)
  end.
Proof.
  intros step. revert acc.
  induction keys as [|key keys IH]; intros acc; simpl.
  - destruct acc as [a|].
    + split; [now left|]. split; [|intros ? ? []].
      intros a' E. injection E as <-. lia.
    + split; [reflexivity | intros ? []].
  - specialize (IH (step acc key)).
    destruct (fold_left step keys (step acc key)) as [d|].
    + destruct IH as (Hex & Hacc & Hall). unfold step in Hex, Hacc.
      destruct (key hf) as [v|] eqn:Ev.
      * split; [|split].
        -- destruct Hex as [E | (k & Hk & Ek)].
           ++ injection E as E. destruct acc as [a|].
              ** destruct (Z.min_spec a v) as [[_ M]|[_ M]];
                   rewrite M in E; subst.
                 --- now left.
                 --- right. exists key. auto.
              ** subst. right. exists key. auto.
           ++ right. exists k. auto.
        -- intros a E. subst acc. specialize (Hacc _ eq_refl). lia.
        -- intros k w [<-|Hk] Ew.
           ++ rewrite Ev in Ew. injection Ew as <-.
              destruct acc as [a|];
                [specialize (Hacc _ eq_refl) | specialize (Hacc _ eq_refl)];
                lia.
           ++ now apply (Hall k).
      * split; [|split].
        -- destruct Hex as [E | (k & Hk & Ek)]; [now left|].
           right. exists k. auto.
        -- exact Hacc.
        -- intros k w [<-|Hk] Ew; [congruence | now apply (Hall k)].
    + destruct IH as [Hacc Hall]. unfold step in Hacc.
      destruct (key hf) as [v|] eqn:Ev; [discriminate|].
      split; [exact Hacc|]. intros k [<-|Hk]; [exact Ev | now apply Hall].
Qed.

Lemma derive_max_len_spec (hf : hf_config) :
  match derive_max_len hf with
  | None => forall key, In key possible_keys -> key hf = None
  | Some d =>
      (exists key, In key possible_keys /\ key hf = Some d) /\
      (forall key v, In key possible_keys -> key hf = Some v -> (d <= v)%Z)
  end.
Proof.
  pose proof (derive_fold_spec hf possible_keys None) as H.
  unfold derive_max_len. cbv zeta in H.
  destruct (fold_left _ possible_keys None) as [d|].
  - destruct H as ([E|Hex] & _ & Hall); [discriminate|]. auto.
  - apply H.
Qed.

Lemma int_le_ceil (x : R) : (Cfg.int x <= Py.ceil x)%Z.
Proof.
  unfold Cfg.int. destruct (Rle_dec 0 x); [|lia].
  apply floor_le_ceil. lra.
Qed.

Lemma int_IZR (z : Z) : Cfg.int (IZR z) = z.
Proof.
  unfold Cfg.int. destruct (Rle_dec 0 (IZR z)); [|apply ceil_IZR].
  unfold Py.floor. symmetry. apply Int_part_spec. lra.
Qed.

Lemma ceil_monotone (x y : R) : x <= y -> (Py.ceil x <= Py.ceil y)%Z.
Proof.
  intros H. apply Z.lt_succ_r, lt_IZR. rewrite succ_IZR.
  destruct (ceil_bounds x). destruct (ceil_bounds y). lra.
Qed.

(** What a returned maximum length satisfies. *)
Lemma max_len_Return_inv (hf : hf_config) (m : option Z) (n : Z) :
  _get_and_verify_max_len hf m = Cfg.Return n ->
  exists d,
    derive_max_len hf = Some d /\
    rope_scaling hf <> Some None /\
    match m with
    | None => n = Cfg.int (IZR d * scaling_of hf)
    | Some u => n = u /\ IZR u <= IZR d * scaling_of hf
    end.
Proof.
  unfold _get_and_verify_max_len, scaling_of. intros H.
  destruct (derive_max_len hf) as [d|]; [|discriminate].
  exists d. split; [reflexivity|].
  destruct (rope_scaling hf) as [[f|]|]; simpl in H; try discriminate.
  - split; [discriminate|]. destruct m as [u|].
    + destruct (Rlt_dec (IZR d * f) (IZR u)); [discriminate|].
      injection H as <-. split; [reflexivity | lra].
    + injection H as <-. reflexivity.
  - split; [discriminate|]. rewrite Rmult_1_r. destruct m as [u|].
    + destruct (Rlt_dec (IZR d) (IZR u)); [discriminate|].
      injection H as <-. split; [reflexivity | lra].
    + injection H as <-. reflexivity.
Qed.

Lemma max_len_bound (hf : hf_config) (m : option Z) (n : Z) :
  _get_and_verify_max_len hf m = Cfg.Return n ->
  0 <= scaling_of hf ->
  forall key v, In key possible_keys -> key hf = Some v ->
    (n <= Py.ceil (IZR v * scaling_of hf))%Z /\
    (forall u, m = Some u -> n = u /\ IZR u <= IZR v * scaling_of hf).
Proof.
  intros H Hf key v Hin Hv.
  apply max_len_Return_inv in H as (d & Hd & _ & Hn).
  pose proof (derive_max_len_spec hf) as Hs. rewrite Hd in Hs.
  destruct Hs as [_ Hmin]. specialize (Hmin key v Hin Hv).
  assert (Hle : IZR d * scaling_of hf <= IZR v * scaling_of hf).
  { apply Rmult_le_compat_r; [assumption | now apply IZR_le]. }
  destruct m as [u|].
  - destruct Hn as [-> Hu]. split.
    + apply ceil_ge. lra.
    + intros u' E. injection E as <-. split; [reflexivity | lra].
  - subst n. split; [|discriminate].
    etransitivity; [apply int_le_ceil | now apply ceil_monotone].
Qed.

(** X22: Without any of the six length keys the function raises a [ValueError],
    also when the caller names a [max_model_len] of their own. *)
Theorem X22_max_len_needs_a_key (hf : hf_config) (m : option Z) :
  (forall key, In key possible_keys -> key hf = None) ->
  _get_and_verify_max_len hf m = Cfg.Throw Cfg.ValueError.
Proof.
  intros Hnone. unfold _get_and_verify_max_len.
  pose proof (derive_max_len_spec hf) as Hs.
  destruct (derive_max_len hf) as [d|]; [|reflexivity].
  destruct Hs as [(key & Hin & Hk) _]. rewrite (Hnone key Hin) in Hk.
  discriminate.
Qed.

Lemma X22_max_len_needs_a_key_witness :
  _get_and_verify_max_len
    {| num_attention_heads := 32; num_hidden_layers := 32;
       hidden_size := 4096; n_head_kv := None; num_kv_heads := None;
       num_key_value_heads := None; hf_max_position_embeddings := None;
       n_positions := None; max_seq_len := None;
       max_sequence_length := None; max_seq_length := None;
       seq_len := None; rope_scaling := None |} (Some 2048%Z)
  = Cfg.Throw Cfg.ValueError.
Proof.
  apply X22_max_len_needs_a_key. intros key Hin. simpl in Hin.
  repeat (destruct Hin as [<- | Hin]; [reflexivity|]). destruct Hin.
Defined.

(** X23: For a scaling factor [>= 0], a returned maximum length exceeds none of
    the length keys that are set, times the factor (rounded up); a
    [max_model_len] the caller names is returned unchanged, and only when it
    is at most each of these products. *)
Theorem X23_max_len_bound (hf : hf_config) (m : option Z) (n : Z) :
  _get_and_verify_max_len hf m = Cfg.Return n ->
  0 <= scaling_of hf ->
  forall key v, In key possible_keys -> key hf = Some v ->
    (n <= Py.ceil (IZR v * scaling_of hf))%Z /\
    (forall u, m = Some u -> n = u /\ IZR u <= IZR v * scaling_of hf).
Proof. apply max_len_bound. Qed.

Lemma llama_max_len :
  _get_and_verify_max_len llama_config None = Cfg.Return 8192%Z.
Proof.
  unfold _get_and_verify_max_len. simpl.
  replace (4096 * 2) with (IZR 8192) by lra. now rewrite int_IZR.
Qed.

Lemma X23_max_len_bound_witness :
  (8192 <= Py.ceil (IZR 4096 * scaling_of llama_config))%Z.
Proof.
  assert (Hf : 0 <= scaling_of llama_config)
    by (unfold scaling_of, llama_config; simpl; lra).
  destruct (X23_max_len_bound llama_config None 8192 llama_max_len Hf
              hf_max_position_embeddings 4096%Z) as [H _].
  - simpl. auto.
  - reflexivity.
  - exact H.
Defined.

(** X24: The derived length fits the cache: when the rotary embedding is built
    from the configuration's [max_position_embeddings] and scaling factor,
    every position below the returned maximum length has a row in the
    cache. *)
Theorem X24_max_len_within_cache (hf : hf_config) (m : option Z) (n : Z)
    (v : variant) (hs d mp : Z) (b : R) (neox : bool)
    (obj : RotaryEmbedding.t) :
  _get_and_verify_max_len hf m = Cfg.Return n ->
  hf_max_position_embeddings hf = Some mp ->
  0 <= scaling_of hf ->
  effective_max_positions v mp = IZR mp * scaling_of hf ->
  construct v hs d mp b neox = Ok obj ->
  (n <= Z.of_nat (length (RotaryEmbedding.cos_sin_cache obj)))%Z.
Proof.
  intros Hn Hmp Hf Heff Hc.
  destruct (max_len_bound hf m n Hn Hf hf_max_position_embeddings mp)
    as [Hle _]; [simpl; auto | assumption |].
  apply construct_Ok_inv in Hc as (_ & _ & Hpos & f & _ & ->).
  rewrite length_table, length_map, length_seq, Heff.
  rewrite Heff in Hpos. pose proof (ceil_nonneg _ Hpos). lia.
Qed.

Lemma X24_max_len_within_cache_witness :
  exists obj,
    construct (Linear 2) 128 128 4096 10000 true = Ok obj /\
    (8192 <= Z.of_nat (length (RotaryEmbedding.cos_sin_cache obj)))%Z.
Proof.
  destruct (linear_construct_Ok 2 128 128 4096 10000 true)
    as [obj H]; [lia | lra |].
  exists obj. split; [exact H|].
  apply (X24_max_len_within_cache llama_config None 8192 (Linear 2)
           128 128 4096 10000 true obj llama_max_len).
  - reflexivity.
  - unfold scaling_of, llama_config. simpl. lra.
  - reflexivity.
  - exact H.
Defined.

(** * SqueezeLLM *)

Lemma squeeze_config_inv (wb : Z) (cfg : SqueezeLLMConfig.t) :
  SqueezeLLMConfig.__init__ wb = Cfg.Return cfg ->
  wb = 4%Z /\
  cfg = {| SqueezeLLMConfig.weight_bits := 4;
           SqueezeLLMConfig.pack_factor := 8 |}.
Proof.
  unfold SqueezeLLMConfig.__init__.
  destruct (Z.eqb_spec wb 4) as [->|]; [|discriminate].
  simpl. intros H. injection H as <-. auto.
Qed.

Lemma create_weights_Return (i o : Z) :
  (0 <= i)%Z -> (0 <= o)%Z -> (i mod 4 = 0)%Z -> (o mod 8 = 0)%Z ->
  create_weights {| SqueezeLLMConfig.weight_bits := 4;
                    SqueezeLLMConfig.pack_factor := 8 |} i o
  = Cfg.Return ((i / 8, o), (o, 16))%Z.
Proof.
  intros Hi Ho Hi4 Ho8. unfold create_weights, Cfg.mod_, Cfg.floordiv.
  simpl. rewrite Hi4, Ho8. simpl. unfold torch_empty.
  assert (Hr : (0 <= i / 8)%Z) by (apply Z.div_pos; lia).
  destruct (Z.ltb_spec (i / 8) 0); [lia|].
  destruct (Z.ltb_spec o 0); [lia|]. simpl.
  reflexivity.
Qed.

(** X25: With a [SqueezeLLMConfig] that was built (4 bits, 8 weights per packed
    word), [create_weights] fails its assertions unless the input size is a
    multiple of 4 and the output size a multiple of 8; it then returns a
    [qweight] of shape [(input // 8, output)] and a [lookup_table] of shape
    [(output, 16)] for sizes that are not negative.  The assertion on the
    input size tests [weight_bits], not [pack_factor]: an input size of
    4 modulo 8 passes, and [qweight] then packs only [input - 4] input
    rows. *)
Theorem X25_squeeze_create_weights (wb : Z) (cfg : SqueezeLLMConfig.t)
    (i o : Z) :
  SqueezeLLMConfig.__init__ wb = Cfg.Return cfg ->
  ((i mod 4 <> 0)%Z \/ (o mod 8 <> 0)%Z ->
   create_weights cfg i o = Cfg.Throw Cfg.AssertionError) /\
  (forall q l,
     create_weights cfg i o = Cfg.Return (q, l) ->
     q = (i / 8, o)%Z /\ l = (o, 16%Z) /\ (0 <= i)%Z /\ (0 <= o)%Z /\
     (i mod 4 = 0)%Z /\ (o mod 8 = 0)%Z) /\
  ((0 <= i)%Z -> (0 <= o)%Z -> (i mod 8 = 4)%Z -> (o mod 8 = 0)%Z ->
   create_weights cfg i o = Cfg.Return ((i / 8, o), (o, 16))%Z /\
   (8 * (i / 8) = i - 4)%Z).
Proof.
  intros H. apply squeeze_config_inv in H as [_ ->].
  split; [|split].
  - intros Hbad. unfold create_weights, Cfg.mod_. simpl.
    destruct (Z.eqb_spec (i mod 4) 0) as [E4|]; [|reflexivity]. simpl.
    destruct (Z.eqb_spec (o mod 8) 0) as [E8|]; [|reflexivity].
    destruct Hbad; contradiction.
  - intros q l Hr. pose proof Hr as Hr'.
    unfold create_weights, Cfg.mod_, Cfg.floordiv in Hr'. simpl in Hr'.
    destruct (Z.eqb_spec (i mod 4) 0) as [E4|]; [|discriminate].
    simpl in Hr'.
    destruct (Z.eqb_spec (o mod 8) 0) as [E8|]; [|discriminate].
    simpl in Hr'. unfold torch_empty in Hr'.
    destruct (Z.ltb_spec (i / 8) 0) as [|Hi]; [discriminate|].
    destruct (Z.ltb_spec o 0) as [|Ho]; [discriminate|].
    assert (Hi0 : (0 <= i)%Z).
    { pose proof (Z.div_mod i 8 ltac:(lia)).
      pose proof (Z.mod_pos_bound i 8 ltac:(lia)). lia. }
    rewrite create_weights_Return in Hr by assumption.
    injection Hr as <- <-. repeat split; assumption.
  - intros Hi Ho Hi8 Ho8.
    pose proof (Z.div_mod i 8 ltac:(lia)) as Hdm.
    assert (Hi4 : (i mod 4 = 0)%Z).
    { replace i with (4 + (2 * (i / 8)) * 4)%Z by lia.
      rewrite Z.mod_add by lia. reflexivity. }
    split; [now apply create_weights_Return | lia].
Qed.

Lemma X25_squeeze_create_weights_witness :
  exists cfg,
    SqueezeLLMConfig.__init__ 4 = Cfg.Return cfg /\
    create_weights cfg 12 8 = Cfg.Return ((1, 8), (8, 16))%Z.
Proof.
  eexists. split; [reflexivity|].
  apply (X25_squeeze_create_weights 4 _ 12 8 eq_refl); try lia; reflexivity.
Defined.
